(** * Detailed-diff translation (pkg/backend/display/detailedDiff.go)

    A shallow embedding of [parseDiffPath], [getProperty], [addDiff] and
    [translateDetailedDiff], followed by the properties established about
    them.  Go strings are byte sequences, modelled by [string] (a list of
    8-bit [ascii]); Go [int] is the 64-bit signed integer, modelled by [Z]
    with the range check of [strconv.ParseInt] written out; Go maps are
    [gmap]s, a missing key reading as the zero value of the element type;
    a [panic] is the [Fault]/[ParsePanic] outcome. *)

From Stdlib Require Import ZArith Ascii String List Lia Bool.
From stdpp Require Import base option gmap strings list fin_maps.

Set Warnings "-register-all".

Local Open Scope string_scope.
Local Open Scope Z_scope.

(** ** Bytes and strings *)

Definition dquote : ascii := Ascii.ascii_of_nat 34.
Definition backslash : ascii := Ascii.ascii_of_nat 92.
Definition dot : ascii := Ascii.ascii_of_nat 46.
Definition lbracket : ascii := Ascii.ascii_of_nat 91.
Definition rbracket_char : ascii := Ascii.ascii_of_nat 93.
Definition plus_char : ascii := Ascii.ascii_of_nat 43.
Definition minus_char : ascii := Ascii.ascii_of_nat 45.

(** [append(propertyKey, c)] *)
Definition append_byte (s : string) (c : ascii) : string :=
  s ++ String c EmptyString.

(** [s[n:]] for [n <= len(s)] *)
Fixpoint string_drop (n : nat) (s : string) : string :=
  match n, s with
  | O, _ => s
  | S n', String _ r => string_drop n' r
  | S _, EmptyString => EmptyString
  end.

(** [strings.IndexRune(s, c)] for a one-byte rune [c]: the index of the
    first occurrence, [None] standing for Go's [-1]. *)
Fixpoint IndexRune (s : string) (c : ascii) : option nat :=
  match s with
  | EmptyString => None
  | String c' r =>
      if Ascii.eqb c' c then Some O
      else match IndexRune r c with
           | Some n => Some (S n)
           | None => None
           end
  end.

(** ** strconv.ParseInt(s, 10, 0) *)

(** Size of Go's [int] in bits, the meaning of [bitSize = 0]. *)
Definition intSize : Z := 64.

Definition digit_value (c : ascii) : option Z :=
  let n := Z.of_nat (Ascii.nat_of_ascii c) in
  if (48 <=? n) && (n <=? 57) then Some (n - 48) else None.

(** The digit loop of [ParseUint], without its overflow cut-off: an
    overflowing magnitude is rejected by the range check of [ParseInt]. *)
Fixpoint parse_digits (s : string) (acc : Z) : option Z :=
  match s with
  | EmptyString => Some acc
  | String c r =>
      match digit_value c with
      | Some d => parse_digits r (acc * 10 + d)
      | None => None
      end
  end.

(** [None] is a non-nil [err] (syntax or range error). *)
Definition ParseInt (s : string) : option Z :=
  match s with
  | EmptyString => None
  | String c r =>
      let '(neg, body) :=
        if Ascii.eqb c plus_char then (false, r)
        else if Ascii.eqb c minus_char then (true, r)
        else (false, s) in
      match body with
      | EmptyString => None
      | _ =>
          match parse_digits body 0 with
          | None => None
          | Some un =>
              let cutoff := 2 ^ (intSize - 1) in
              if neg then (if un <=? cutoff then Some (- un) else None)
              else (if un <? cutoff then Some un else None)
          end
      end
  end.

(** ** Path elements and parse results *)

(** A path element is an [interface{}]: the parser stores an [int] or a
    [string]; [EOther] is a value of any other dynamic type. *)
Inductive PathElement : Type :=
| EInt (index : Z)
| EStr (name : string)
| EOther.

Inductive ParseError : Type :=
| MissingClosingQuote            (* "missing closing quote in property name" *)
| MissingClosingBracketProperty  (* "missing closing bracket in property access" *)
| MissingClosingBracketIndex     (* "missing closing bracket in array index" *)
| InvalidArrayIndex.             (* "invalid array index" *)

Inductive ParseResult : Type :=
| ParseOk (elements : list PathElement)   (* (elements, nil) *)
| ParseErr (err : ParseError)             (* (nil, err) *)
| ParsePanic                              (* runtime error: index out of range *)
| ParseOutOfFuel.                         (* the model's loop bound was hit *)

(** ** parseDiffPath *)

(** The loop [for i = 2; ; { ... }] over a quoted key.  [rest] is
    [path[i:]]; the result is the key and [path[i:]] after the closing
    quote was stepped over, or [None] when [i == len(path)] is reached. *)
Fixpoint scanQuoted (rest : string) (propertyKey : string) : option (string * string) :=
  match rest with
  | EmptyString => None
  | String c rest' =>
      if Ascii.eqb c dquote then Some (propertyKey, rest')
      else
        match rest' with
        | String c' rest'' =>
            if Ascii.eqb c backslash && Ascii.eqb c' dquote
            then scanQuoted rest'' (append_byte propertyKey dquote)
            else scanQuoted rest' (append_byte propertyKey c)
        | EmptyString => scanQuoted rest' (append_byte propertyKey c)
        end
  end.

(** The loop [for i := 0; ; i++] of the default case: [(path[:i], path[i:])]
    for the first [i] with [i == len(path)], [path[i] == '.'] or
    [path[i] == '[']. *)
Fixpoint scanName (path : string) : string * string :=
  match path with
  | EmptyString => (EmptyString, EmptyString)
  | String c rest =>
      if Ascii.eqb c dot || Ascii.eqb c lbracket then (EmptyString, path)
      else let '(name, tail) := scanName rest in (String c name, tail)
  end.

(** The loop [for len(path) > 0]; each iteration consumes at least one byte. *)
Fixpoint parseLoop (fuel : nat) (path : string) (elements : list PathElement)
  : ParseResult :=
  match path with
  | EmptyString => ParseOk elements
  | String c0 rest =>
      match fuel with
      | O => ParseOutOfFuel
      | S fuel' =>
          if Ascii.eqb c0 dot then
            parseLoop fuel' rest elements
          else if Ascii.eqb c0 lbracket then
            match rest with
            | EmptyString => ParsePanic                    (* path[1] *)
            | String c1 rest1 =>
                if Ascii.eqb c1 dquote then
                  match scanQuoted rest1 EmptyString with
                  | None => ParseErr MissingClosingQuote
                  | Some (propertyKey, after) =>
                      match after with
                      | String c2 after' =>
                          if Ascii.eqb c2 rbracket_char
                          then parseLoop fuel' after' (elements ++ [EStr propertyKey])
                          else ParseErr MissingClosingBracketProperty
                      | EmptyString => ParseErr MissingClosingBracketProperty
                      end
                  end
                else
                  match IndexRune path rbracket_char with
                  | None => ParseErr MissingClosingBracketIndex
                  | Some rbracket =>
                      match ParseInt (String.substring 1 (rbracket - 1) path) with
                      | None => ParseErr InvalidArrayIndex
                      | Some index =>
                          parseLoop fuel' (string_drop (S rbracket) path)
                                    (elements ++ [EInt index])
                      end
                  end
            end
          else
            let '(name, tail) := scanName path in
            parseLoop fuel' tail (elements ++ [EStr name])
      end
  end.

Definition parseDiffPath (path : string) : ParseResult :=
  parseLoop (String.length path) path [].

(** ** Property values (package resource) *)

(** Modelled from the spec: [resource.PropertyValue], declared outside
    this file, is a tagged union over null, bool, number, string, array
    and object plus the three opaque variants computed, output and secret,
    which wrap contents that are never inspected here.  The zero value
    [PropertyValue{}] is null.  Numbers are never inspected by this code;
    their carrier is [Z]. *)
Inductive PropertyValue : Type :=
| PVNull
| PVBool (b : bool)
| PVNumber (n : Z)
| PVString (s : string)
| PVArray (elems : list PropertyValue)
| PVObject (props : gmap string PropertyValue)
| PVComputed (element : PropertyValue)
| PVOutput (element : PropertyValue)
| PVSecret (element : PropertyValue).

Definition IsNull (v : PropertyValue) : bool :=
  match v with PVNull => true | _ => false end.
Definition IsArray (v : PropertyValue) : bool :=
  match v with PVArray _ => true | _ => false end.
Definition IsObject (v : PropertyValue) : bool :=
  match v with PVObject _ => true | _ => false end.
Definition IsComputed (v : PropertyValue) : bool :=
  match v with PVComputed _ => true | _ => false end.
Definition IsOutput (v : PropertyValue) : bool :=
  match v with PVOutput _ => true | _ => false end.
Definition IsSecret (v : PropertyValue) : bool :=
  match v with PVSecret _ => true | _ => false end.

(** [v.ArrayValue()] and [v.ObjectValue()], used under [IsArray] and
    [IsObject] only. *)
Definition ArrayValue (v : PropertyValue) : list PropertyValue :=
  match v with PVArray l => l | _ => [] end.
Definition ObjectValue (v : PropertyValue) : gmap string PropertyValue :=
  match v with PVObject m => m | _ => ∅ end.

(** [resource.NewObjectProperty] *)
Definition NewObjectProperty (m : gmap string PropertyValue) : PropertyValue :=
  PVObject m.

(** Reading a Go map of property values: a missing key yields the zero
    value. *)
Definition map_get {K} `{Countable K} (m : gmap K PropertyValue) (k : K)
  : PropertyValue :=
  default PVNull (m !! k).

(** ** getProperty *)

Definition getProperty (key : PathElement) (v : PropertyValue) : PropertyValue :=
  if IsArray v then
    match key with
    | EInt index =>
        if (index <? 0) || (Z.of_nat (length (ArrayValue v)) <=? index)
        then PVNull
        else nth (Z.to_nat index) (ArrayValue v) PVNull
    | _ => PVNull
    end
  else if IsObject v then
    match key with
    | EStr k => map_get (ObjectValue v) k
    | _ => PVNull
    end
  else if IsComputed v || IsOutput v || IsSecret v then v
  else PVNull.

(** ** Diff trees (package resource) and diff kinds (package plugin) *)

(** Modelled from the spec: [plugin.DiffKind], declared outside this
    file, has the six kinds below; it is an integer type, and
    [DiffKindOther] stands for any value that is none of the six. *)
Inductive DiffKind : Type :=
| DiffAdd | DiffAddReplace
| DiffDelete | DiffDeleteReplace
| DiffUpdate | DiffUpdateReplace
| DiffKindOther (raw : Z).

(** [plugin.PropertyDiff] *)
Record PropertyDiff : Type := mkPropertyDiff {
  Kind : DiffKind;
  InputDiff : bool;
}.

(** Modelled from the spec: [resource.ArrayDiff] and
    [resource.ObjectDiff], declared outside this file, are four maps Adds,
    Deletes, Sames and Updates, keyed by index and by property key; the
    values of Updates are nested [ValueDiff]s. *)
Module ArrayDiff.
Record t (V : Type) : Type := mk {
  Adds : gmap Z PropertyValue;
  Deletes : gmap Z PropertyValue;
  Sames : gmap Z PropertyValue;
  Updates : gmap Z V;
}.
Arguments mk {V} _ _ _ _.
Arguments Adds {V} _.
Arguments Deletes {V} _.
Arguments Sames {V} _.
Arguments Updates {V} _.
End ArrayDiff.

Module ObjectDiff.
Record t (V : Type) : Type := mk {
  Adds : gmap string PropertyValue;
  Deletes : gmap string PropertyValue;
  Sames : gmap string PropertyValue;
  Updates : gmap string V;
}.
Arguments mk {V} _ _ _ _.
Arguments Adds {V} _.
Arguments Deletes {V} _.
Arguments Sames {V} _.
Arguments Updates {V} _.
End ObjectDiff.

(** Modelled from the spec: [resource.ValueDiff], declared outside this
    file: the old and new value and two pointers, each possibly nil, to an
    array diff and an object diff. *)
Inductive ValueDiff : Type := mkValueDiff {
  Old : PropertyValue;
  New : PropertyValue;
  Array : option (ArrayDiff.t ValueDiff);
  Object : option (ObjectDiff.t ValueDiff);
}.

(** [resource.ValueDiff{}], also what reading a missing key of an Updates
    map yields. *)
Definition zeroValueDiff : ValueDiff := mkValueDiff PVNull PVNull None None.

(** [&resource.ArrayDiff{Adds: make(..), ...}] and its object twin. *)
Definition newArrayDiff : ArrayDiff.t ValueDiff := ArrayDiff.mk ∅ ∅ ∅ ∅.
Definition newObjectDiff : ObjectDiff.t ValueDiff := ObjectDiff.mk ∅ ∅ ∅ ∅.

(** ** Panics *)

Inductive Panic : Type :=
| RequireFailed           (* contract.Require(len(path) > 0, ..) *)
| UnexpectedDiffKind      (* contract.Failf("unexpected diff kind %v", kind) *)
| UnexpectedElementType   (* contract.Failf("unexpected path element type: %T", ..) *)
| AssertFailed            (* contract.Assert(..) *)
| IndexOutOfRange         (* runtime error in parseDiffPath *)
| LoopBound.              (* [ParseOutOfFuel], which never arises *)

Inductive exec (A : Type) : Type :=
| Done (a : A)
| Fault (p : Panic).
Arguments Done {A} a.
Arguments Fault {A} p.

Definition exec_bind {A B} (m : exec A) (f : A → exec B) : exec B :=
  match m with
  | Done a => f a
  | Fault p => Fault p
  end.

Notation "'do' x <- m ; f" := (exec_bind m (fun x => f))
  (at level 10, x name, m at level 100, f at level 200).

(** ** addDiff *)

(** Assignments [parent.Array.Adds[element] = v] and the like; [a] is the
    array diff [parent.Array] points to after the nil check. *)
Definition setArrayAdds (parent : ValueDiff) (a : ArrayDiff.t ValueDiff)
    (i : Z) (v : PropertyValue) : ValueDiff :=
  mkValueDiff (Old parent) (New parent)
    (Some (ArrayDiff.mk (<[i := v]> (ArrayDiff.Adds a)) (ArrayDiff.Deletes a)
                        (ArrayDiff.Sames a) (ArrayDiff.Updates a)))
    (Object parent).

Definition setArrayDeletes (parent : ValueDiff) (a : ArrayDiff.t ValueDiff)
    (i : Z) (v : PropertyValue) : ValueDiff :=
  mkValueDiff (Old parent) (New parent)
    (Some (ArrayDiff.mk (ArrayDiff.Adds a) (<[i := v]> (ArrayDiff.Deletes a))
                        (ArrayDiff.Sames a) (ArrayDiff.Updates a)))
    (Object parent).

Definition setArrayUpdates (parent : ValueDiff) (a : ArrayDiff.t ValueDiff)
    (i : Z) (d : ValueDiff) : ValueDiff :=
  mkValueDiff (Old parent) (New parent)
    (Some (ArrayDiff.mk (ArrayDiff.Adds a) (ArrayDiff.Deletes a)
                        (ArrayDiff.Sames a) (<[i := d]> (ArrayDiff.Updates a))))
    (Object parent).

Definition setObjectAdds (parent : ValueDiff) (o : ObjectDiff.t ValueDiff)
    (e : string) (v : PropertyValue) : ValueDiff :=
  mkValueDiff (Old parent) (New parent) (Array parent)
    (Some (ObjectDiff.mk (<[e := v]> (ObjectDiff.Adds o)) (ObjectDiff.Deletes o)
                         (ObjectDiff.Sames o) (ObjectDiff.Updates o))).

Definition setObjectDeletes (parent : ValueDiff) (o : ObjectDiff.t ValueDiff)
    (e : string) (v : PropertyValue) : ValueDiff :=
  mkValueDiff (Old parent) (New parent) (Array parent)
    (Some (ObjectDiff.mk (ObjectDiff.Adds o) (<[e := v]> (ObjectDiff.Deletes o))
                         (ObjectDiff.Sames o) (ObjectDiff.Updates o))).

Definition setObjectUpdates (parent : ValueDiff) (o : ObjectDiff.t ValueDiff)
    (e : string) (d : ValueDiff) : ValueDiff :=
  mkValueDiff (Old parent) (New parent) (Array parent)
    (Some (ObjectDiff.mk (ObjectDiff.Adds o) (ObjectDiff.Deletes o)
                         (ObjectDiff.Sames o) (<[e := d]> (ObjectDiff.Updates o)))).

(** [if parent.Array == nil { parent.Array = &resource.ArrayDiff{..} }] *)
Definition ensureArray (parent : ValueDiff) : ArrayDiff.t ValueDiff :=
  default newArrayDiff (Array parent).
Definition ensureObject (parent : ValueDiff) : ObjectDiff.t ValueDiff :=
  default newObjectDiff (Object parent).

(** [ed := parent.Array.Updates[element]] *)
Definition arrayUpdate (a : ArrayDiff.t ValueDiff) (i : Z) : ValueDiff :=
  default zeroValueDiff (ArrayDiff.Updates a !! i).
Definition objectUpdate (o : ObjectDiff.t ValueDiff) (e : string) : ValueDiff :=
  default zeroValueDiff (ObjectDiff.Updates o !! e).

(** The struct [ed] is copied out of the Updates map, changed through
    [&ed] and stored back, so the updated node is a function of the old
    one.  A panic abandons the whole translation. *)
Fixpoint addDiff (path : list PathElement) (kind : DiffKind) (parent : ValueDiff)
    (oldParent newParent : PropertyValue) : exec ValueDiff :=
  match path with
  | [] => Fault RequireFailed
  | element :: rest =>
      let old := getProperty element oldParent in
      let new := getProperty element newParent in
      match element with
      | EInt element =>
          let a := ensureArray parent in
          match rest with
          | [] =>
              match kind with
              | DiffAdd | DiffAddReplace => Done (setArrayAdds parent a element new)
              | DiffDelete | DiffDeleteReplace => Done (setArrayDeletes parent a element old)
              | DiffUpdate | DiffUpdateReplace =>
                  Done (setArrayUpdates parent a element (mkValueDiff old new None None))
              | DiffKindOther _ => Fault UnexpectedDiffKind
              end
          | _ :: _ =>
              if IsNull old && negb (IsNull new) then
                Done (setArrayAdds parent a element new)
              else if negb (IsNull old) && IsNull new then
                Done (setArrayDeletes parent a element old)
              else
                do ed <- addDiff rest kind (arrayUpdate a element) old new;
                Done (setArrayUpdates parent a element ed)
          end
      | EStr element =>
          let o := ensureObject parent in
          let e := element in
          match rest with
          | [] =>
              match kind with
              | DiffAdd | DiffAddReplace => Done (setObjectAdds parent o e new)
              | DiffDelete | DiffDeleteReplace => Done (setObjectDeletes parent o e old)
              | DiffUpdate | DiffUpdateReplace =>
                  Done (setObjectUpdates parent o e (mkValueDiff old new None None))
              | DiffKindOther _ => Fault UnexpectedDiffKind
              end
          | _ :: _ =>
              if IsNull old && negb (IsNull new) then
                Done (setObjectAdds parent o e new)
              else if negb (IsNull old) && IsNull new then
                Done (setObjectDeletes parent o e old)
              else
                do ed <- addDiff rest kind (objectUpdate o e) old new;
                Done (setObjectUpdates parent o e ed)
          end
      | EOther => Fault UnexpectedElementType
      end
  end.

(** ** translateDetailedDiff *)

(** Modelled from the spec: the part of [engine.StepEventMetadata],
    declared outside this file, that the translation reads.  A nil
    [DetailedDiff] map is [None]; a present one is listed in the order the
    [range] loop visits it. *)
Record StepEventMetadata : Type := mkStep {
  DetailedDiff : option (list (string * PropertyDiff));
  OldOutputs : gmap string PropertyValue;   (* step.Old.Outputs *)
  OldInputs : gmap string PropertyValue;    (* step.Old.Inputs *)
  NewInputs : gmap string PropertyValue;    (* step.New.Inputs *)
}.

(** One iteration of the [range] loop. *)
Definition applyRecord (step : StepEventMetadata) (diff : ValueDiff)
    (record : string * PropertyDiff) : exec ValueDiff :=
  let '(path, pdiff) := record in
  match parseDiffPath path with
  | ParseOk elements =>
      let olds :=
        if InputDiff pdiff then NewObjectProperty (OldInputs step)
        else NewObjectProperty (OldOutputs step) in
      addDiff elements (Kind pdiff) diff olds (NewObjectProperty (NewInputs step))
  | ParseErr _ => Fault AssertFailed
  | ParsePanic => Fault IndexOutOfRange
  | ParseOutOfFuel => Fault LoopBound
  end.

Fixpoint applyRecords (step : StepEventMetadata) (records : list (string * PropertyDiff))
    (diff : ValueDiff) : exec ValueDiff :=
  match records with
  | [] => Done diff
  | record :: records' =>
      do diff' <- applyRecord step diff record;
      applyRecords step records' diff'
  end.

Definition translateDetailedDiff (step : StepEventMetadata)
  : exec (option (ObjectDiff.t ValueDiff)) :=
  match DetailedDiff step with
  | None => Fault AssertFailed
  | Some records =>
      do diff <- applyRecords step records zeroValueDiff;
      Done (Object diff)
  end.

(** * Vocabulary of the properties *)

(** The string consists of ['.'] bytes only (the empty string included). *)
Fixpoint only_dots (s : string) : bool :=
  match s with
  | EmptyString => true
  | String c r => Ascii.eqb c dot && only_dots r
  end.

(** [t] is what is left of [s] after some prefix. *)
Definition string_suffix (t s : string) : Prop := ∃ prefix, s = prefix ++ t.

(** The bracketed, quoted spelling of a property key: every quote of the
    key is preceded by a backslash. *)
Fixpoint escapeQuotes (key : string) : string :=
  match key with
  | EmptyString => EmptyString
  | String c r =>
      if Ascii.eqb c dquote then String backslash (String dquote (escapeQuotes r))
      else String c (escapeQuotes r)
  end.

Definition quotedAccessor (key : string) : string :=
  String lbracket (String dquote
    (escapeQuotes key ++ String dquote (String rbracket_char EmptyString))).

Fixpoint ends_with_backslash (key : string) : bool :=
  match key with
  | EmptyString => false
  | String c EmptyString => Ascii.eqb c backslash
  | String _ r => ends_with_backslash r
  end.

(** The entry [Adds[element] = v], [Deletes[element] = v] or
    [Updates[element] = d] made in the array diff or the object diff of
    [parent], according to the type of [element]; the diff is allocated
    first when [parent] has none. *)
Definition recordAdd (element : PathElement) (parent : ValueDiff)
    (v : PropertyValue) : ValueDiff :=
  match element with
  | EInt i => setArrayAdds parent (ensureArray parent) i v
  | EStr e => setObjectAdds parent (ensureObject parent) e v
  | EOther => parent
  end.

Definition recordDelete (element : PathElement) (parent : ValueDiff)
    (v : PropertyValue) : ValueDiff :=
  match element with
  | EInt i => setArrayDeletes parent (ensureArray parent) i v
  | EStr e => setObjectDeletes parent (ensureObject parent) e v
  | EOther => parent
  end.

Definition recordUpdate (element : PathElement) (parent : ValueDiff)
    (d : ValueDiff) : ValueDiff :=
  match element with
  | EInt i => setArrayUpdates parent (ensureArray parent) i d
  | EStr e => setObjectUpdates parent (ensureObject parent) e d
  | EOther => parent
  end.

(** The nested diff found at [Updates[element]], the zero diff when there
    is none yet. *)
Definition nestedDiff (element : PathElement) (parent : ValueDiff) : ValueDiff :=
  match element with
  | EInt i => arrayUpdate (ensureArray parent) i
  | EStr e => objectUpdate (ensureObject parent) e
  | EOther => zeroValueDiff
  end.

(** The kind without its replace annotation. *)
Definition baseKind (kind : DiffKind) : DiffKind :=
  match kind with
  | DiffAdd | DiffAddReplace => DiffAdd
  | DiffDelete | DiffDeleteReplace => DiffDelete
  | DiffUpdate | DiffUpdateReplace => DiffUpdate
  | DiffKindOther raw => DiffKindOther raw
  end.

(** At most one of the array diff and the object diff is populated, on
    this node and on every node below it. *)
Inductive exclusive : ValueDiff → Prop :=
| exclusive_node (d : ValueDiff) :
    (Array d = None ∨ Object d = None) →
    (∀ a i d', Array d = Some a → ArrayDiff.Updates a !! i = Some d' → exclusive d') →
    (∀ o e d', Object d = Some o → ObjectDiff.Updates o !! e = Some d' → exclusive d') →
    exclusive d.

(** Two path elements of the same dynamic type. *)
Definition same_sort (e e' : PathElement) : bool :=
  match e, e' with
  | EInt _, EInt _ | EStr _, EStr _ | EOther, EOther => true
  | _, _ => false
  end.

#[global] Instance PathElement_eq_dec : EqDecision PathElement.
Proof. solve_decision. Defined.

(** Two paths agree on the type of the element that follows every prefix
    they share. *)
Fixpoint consistent (p q : list PathElement) : bool :=
  match p, q with
  | e :: p', e' :: q' =>
      same_sort e e' && (if decide (e = e') then consistent p' q' else true)
  | _, _ => true
  end.

(** The paths of the records that parse. *)
Definition parsedPaths (records : list (string * PropertyDiff))
  : list (list PathElement) :=
  flat_map (λ record, match parseDiffPath record.1 with
                      | ParseOk elements => [elements]
                      | _ => []
                      end) records.

Definition records_consistent (records : list (string * PropertyDiff)) : bool :=
  let paths := parsedPaths records in
  forallb (λ p, forallb (consistent p) paths) paths.

(** Some path of [paths] continues the prefix [pre] with an integer, with
    a string. *)
Definition int_at (paths : list (list PathElement)) (pre : list PathElement) : Prop :=
  ∃ i rest, (pre ++ EInt i :: rest)%list ∈ paths.
Definition str_at (paths : list (list PathElement)) (pre : list PathElement) : Prop :=
  ∃ e rest, (pre ++ EStr e :: rest)%list ∈ paths.

(** The node reached by [pre] has an array diff only if some path
    continues [pre] with an integer, and an object diff only if some path
    continues it with a string; so have the nodes below. *)
Inductive shaped (paths : list (list PathElement))
  : list PathElement → ValueDiff → Prop :=
| shaped_node (pre : list PathElement) (d : ValueDiff) :
    (∀ a, Array d = Some a → int_at paths pre) →
    (∀ o, Object d = Some o → str_at paths pre) →
    (∀ a i d', Array d = Some a → ArrayDiff.Updates a !! i = Some d' →
               shaped paths (pre ++ [EInt i]) d') →
    (∀ o e d', Object d = Some o → ObjectDiff.Updates o !! e = Some d' →
               shaped paths (pre ++ [EStr e]) d') →
    shaped paths pre d.

(** Two records whose paths continue the prefix [a], one with an index
    and one with a name, on a step whose old and new properties are
    empty. *)
Definition mixedRecords : list (string * PropertyDiff) :=
  [("a[0]", mkPropertyDiff DiffAdd false); ("a.b", mkPropertyDiff DiffAdd false)].
Definition mixedStep : StepEventMetadata := mkStep (Some mixedRecords) ∅ ∅ ∅.

(** Three records with consistent paths, on a step that changes [a.b],
    adds [a.c] and has no [d]. *)
Definition plainRecords : list (string * PropertyDiff) :=
  [("a.b", mkPropertyDiff DiffUpdate false);
   ("a.c", mkPropertyDiff DiffAdd false);
   ("d[0]", mkPropertyDiff DiffDelete false)].
Definition plainStep : StepEventMetadata :=
  mkStep (Some plainRecords)
         {["a" := PVObject {["b" := PVNumber 1]}]} ∅
         {["a" := PVObject {["b" := PVNumber 2; "c" := PVBool true]}]}.

(** A byte of a bare property name: neither ['.'] nor ['[']. *)
Definition name_byte (c : ascii) : bool :=
  negb (Ascii.eqb c dot || Ascii.eqb c lbracket).

Fixpoint all_name_bytes (s : string) : bool :=
  match s with
  | EmptyString => true
  | String c r => name_byte c && all_name_bytes r
  end.

(** The input is exhausted or continues with ['.'] or ['[']. *)
Definition at_boundary (s : string) : bool :=
  match s with
  | EmptyString => true
  | String c _ => negb (name_byte c)
  end.

(** The path grammar as the specification words it, read left to right
    until the input is exhausted: a ['.'] is a separator that is skipped;
    a bracketed quoted key has its quotes escaped and a closing quote and
    bracket; a bracketed index is a base-10 signed integer that
    [ParseInt] accepts; a bare name runs up to the next ['.'] or ['['] or
    to the end of the input. *)
Inductive conforms : string → Prop :=
| conforms_end : conforms EmptyString
| conforms_separator (s : string) :
    conforms s → conforms (String dot s)
| conforms_key (key s : string) :
    ends_with_backslash key = false →
    conforms s → conforms (quotedAccessor key ++ s)
| conforms_index (digits : string) (index : Z) (s : string) :
    ParseInt digits = Some index →
    conforms s → conforms (String lbracket (digits ++ String rbracket_char s))
| conforms_name (name s : string) :
    name ≠ EmptyString → all_name_bytes name = true → at_boundary s = true →
    conforms s → conforms (name ++ s).

Fixpoint no_byte (c : ascii) (s : string) : bool :=
  match s with
  | EmptyString => true
  | String c' r => negb (Ascii.eqb c' c) && no_byte c r
  end.

(** The bytes [ParseInt] accepts: a sign or a decimal digit. *)
Definition int_byte (c : ascii) : bool :=
  Ascii.eqb c plus_char || Ascii.eqb c minus_char || bool_decide (is_Some (digit_value c)).

Fixpoint all_int_bytes (s : string) : bool :=
  match s with
  | EmptyString => true
  | String c r => int_byte c && all_int_bytes r
  end.

(** Replacing the contents of every opaque value that is reachable
    through arrays and objects. *)
Fixpoint reseal (f : PropertyValue → PropertyValue) (v : PropertyValue) : PropertyValue :=
  match v with
  | PVArray elems => PVArray (map (reseal f) elems)
  | PVObject props => PVObject (reseal f <$> props)
  | PVComputed e => PVComputed (f e)
  | PVOutput e => PVOutput (f e)
  | PVSecret e => PVSecret (f e)
  | _ => v
  end.

(** The same replacement in every value a diff tree holds. *)
Fixpoint resealDiff (f : PropertyValue → PropertyValue) (d : ValueDiff) : ValueDiff :=
  match d with
  | mkValueDiff old new array object =>
      mkValueDiff (reseal f old) (reseal f new)
        (match array with
         | Some a =>
             Some (ArrayDiff.mk (reseal f <$> ArrayDiff.Adds a)
                                (reseal f <$> ArrayDiff.Deletes a)
                                (reseal f <$> ArrayDiff.Sames a)
                                (resealDiff f <$> ArrayDiff.Updates a))
         | None => None
         end)
        (match object with
         | Some o =>
             Some (ObjectDiff.mk (reseal f <$> ObjectDiff.Adds o)
                                 (reseal f <$> ObjectDiff.Deletes o)
                                 (reseal f <$> ObjectDiff.Sames o)
                                 (resealDiff f <$> ObjectDiff.Updates o))
         | None => None
         end)
  end.

Definition resealExec (f : PropertyValue → PropertyValue) (r : exec ValueDiff)
  : exec ValueDiff :=
  match r with
  | Done d => Done (resealDiff f d)
  | Fault p => Fault p
  end.

(** The values and the node reached by following [prefix] from the two
    parents and from the accumulator, and the accumulator with the node
    at [prefix] replaced by [inner]. *)
Fixpoint descend (prefix : list PathElement) (v : PropertyValue) : PropertyValue :=
  match prefix with
  | [] => v
  | element :: prefix' => descend prefix' (getProperty element v)
  end.

Fixpoint nodeAt (prefix : list PathElement) (d : ValueDiff) : ValueDiff :=
  match prefix with
  | [] => d
  | element :: prefix' => nodeAt prefix' (nestedDiff element d)
  end.

Fixpoint plug (prefix : list PathElement) (d inner : ValueDiff) : ValueDiff :=
  match prefix with
  | [] => inner
  | element :: prefix' => recordUpdate element d (plug prefix' (nestedDiff element d) inner)
  end.

(** Every element of [prefix] is an integer or a string whose looked-up
    values are null on both sides or on neither: the levels through which
    [addDiff] descends. *)
Fixpoint walkable (prefix : list PathElement) (oldParent newParent : PropertyValue) : bool :=
  match prefix with
  | [] => true
  | element :: prefix' =>
      let old := getProperty element oldParent in
      let new := getProperty element newParent in
      match element with EOther => false | _ => true end
      && Bool.eqb (IsNull old) (IsNull new)
      && walkable prefix' old new
  end.

(** ** What a reader of the diff tree sees *)

(** What a reader of a node finds under [element] in each of its four
    maps: the array diff answers for an integer, the object diff for a
    string, and a diff that is not allocated holds nothing. *)
Definition addsAt (d : ValueDiff) (element : PathElement) : option PropertyValue :=
  match element with
  | EInt i => a ← Array d; ArrayDiff.Adds a !! i
  | EStr e => o ← Object d; ObjectDiff.Adds o !! e
  | EOther => None
  end.

Definition deletesAt (d : ValueDiff) (element : PathElement) : option PropertyValue :=
  match element with
  | EInt i => a ← Array d; ArrayDiff.Deletes a !! i
  | EStr e => o ← Object d; ObjectDiff.Deletes o !! e
  | EOther => None
  end.

Definition samesAt (d : ValueDiff) (element : PathElement) : option PropertyValue :=
  match element with
  | EInt i => a ← Array d; ArrayDiff.Sames a !! i
  | EStr e => o ← Object d; ObjectDiff.Sames o !! e
  | EOther => None
  end.

Definition updatesAt (d : ValueDiff) (element : PathElement) : option ValueDiff :=
  match element with
  | EInt i => a ← Array d; ArrayDiff.Updates a !! i
  | EStr e => o ← Object d; ObjectDiff.Updates o !! e
  | EOther => None
  end.

(** In [r] the diff that takes the entries of [element] is allocated, and
    the other diff is the one [parent] has. *)
Definition allocatedFor (element : PathElement) (parent r : ValueDiff) : Prop :=
  match element with
  | EInt _ => is_Some (Array r) ∧ Object r = Object parent
  | EStr _ => is_Some (Object r) ∧ Array r = Array parent
  | EOther => False
  end.

(** [r] reads as [parent] everywhere but under [element] in Adds, Deletes
    and Updates. *)
Definition sameElsewhere (element : PathElement) (parent r : ValueDiff) : Prop :=
  Old r = Old parent ∧ New r = New parent ∧
  allocatedFor element parent r ∧
  (∀ k, samesAt r k = samesAt parent k) ∧
  (∀ k, k ≠ element →
     addsAt r k = addsAt parent k ∧
     deletesAt r k = deletesAt parent k ∧
     updatesAt r k = updatesAt parent k).

(** [r] is [parent] after the one assignment [Adds[element] = v],
    [Deletes[element] = v] or [Updates[element] = d]: the entry reads back,
    and every other entry of every map reads as before. *)
Definition inAdds (element : PathElement) (v : PropertyValue) (parent r : ValueDiff)
  : Prop :=
  sameElsewhere element parent r ∧
  addsAt r element = Some v ∧
  deletesAt r element = deletesAt parent element ∧
  updatesAt r element = updatesAt parent element.

Definition inDeletes (element : PathElement) (v : PropertyValue) (parent r : ValueDiff)
  : Prop :=
  sameElsewhere element parent r ∧
  deletesAt r element = Some v ∧
  addsAt r element = addsAt parent element ∧
  updatesAt r element = updatesAt parent element.

Definition inUpdates (element : PathElement) (d : ValueDiff) (parent r : ValueDiff)
  : Prop :=
  sameElsewhere element parent r ∧
  updatesAt r element = Some d ∧
  addsAt r element = addsAt parent element ∧
  deletesAt r element = deletesAt parent element.

(** The nested diff read at [Updates[element]], the zero diff when the map
    has no such entry, and the node reached by reading so along [prefix]. *)
Definition fetched (element : PathElement) (d : ValueDiff) : ValueDiff :=
  default zeroValueDiff (updatesAt d element).

Fixpoint reached (prefix : list PathElement) (d : ValueDiff) : ValueDiff :=
  match prefix with
  | [] => d
  | element :: prefix' => reached prefix' (fetched element d)
  end.

(** [r] is [parent] with the node reached along [prefix] replaced by
    [inner]: at each element of the prefix the nested diff is assigned to
    Updates and nothing else changes. *)
Fixpoint replacedAt (prefix : list PathElement) (parent r inner : ValueDiff) : Prop :=
  match prefix with
  | [] => r = inner
  | element :: prefix' =>
      ∃ d, inUpdates element d parent r ∧
           replacedAt prefix' (fetched element parent) d inner
  end.

(** ** Vocabulary of the further properties *)

(** The outcome of parsing a tail, with the elements parsed before it put
    in front. *)
Definition prependElements (elements : list PathElement) (r : ParseResult) : ParseResult :=
  match r with
  | ParseOk rest => ParseOk (elements ++ rest)
  | _ => r
  end.

(** The values of Go's [int]. *)
Definition inIntRange (i : Z) : bool :=
  (- 2 ^ (intSize - 1) <=? i) && (i <? 2 ^ (intSize - 1)).

(** A key that a bare name can spell: not empty, without ['.'] and ['[']. *)
Definition is_name (key : string) : bool :=
  match key with
  | EmptyString => false
  | _ => all_name_bytes key
  end.

(** The elements a path string can denote: an [int], a key spelled as a
    bare name, or a key spelled between quotes, which cannot end with a
    backslash. *)
Definition representable (element : PathElement) : bool :=
  match element with
  | EInt i => inIntRange i
  | EStr key => is_name key || negb (ends_with_backslash key)
  | EOther => false
  end.

(** Decimal digits of a natural number, most significant first, put in
    front of [acc]. *)
Definition digit_char (d : Z) : ascii := Ascii.ascii_of_nat (48 + Z.to_nat d).

Fixpoint decimal_digits (fuel : nat) (n : Z) (acc : string) : string :=
  match fuel with
  | O => acc
  | S fuel' =>
      let acc' := String (digit_char (n mod 10)) acc in
      if n <? 10 then acc' else decimal_digits fuel' (n / 10) acc'
  end.

(** The decimal spelling of an integer, with a minus sign when negative. *)
Definition decimal (n : Z) : string :=
  if n <? 0
  then String minus_char (decimal_digits (S (Z.to_nat (Z.log2 (- n)))) (- n) EmptyString)
  else decimal_digits (S (Z.to_nat (Z.log2 n))) n EmptyString.

(** A spelling of a path: an index between brackets, a name after a dot,
    any other key between brackets and quotes. *)
Definition renderElement (element : PathElement) : string :=
  match element with
  | EInt i => String lbracket (decimal i ++ String rbracket_char EmptyString)
  | EStr key => if is_name key then String dot key else quotedAccessor key
  | EOther => EmptyString
  end.

Fixpoint renderPath (elements : list PathElement) : string :=
  match elements with
  | [] => EmptyString
  | element :: rest => renderElement element ++ renderPath rest
  end.

(** What one call of [addDiff] writes under the first element of its
    path: a value in Adds, a value in Deletes or a nested diff in Updates. *)
Inductive Entry : Type :=
| EntryAdd (v : PropertyValue)
| EntryDelete (v : PropertyValue)
| EntryUpdate (d : ValueDiff).

Definition applyEntry (element : PathElement) (parent : ValueDiff) (entry : Entry)
  : ValueDiff :=
  match entry with
  | EntryAdd v => recordAdd element parent v
  | EntryDelete v => recordDelete element parent v
  | EntryUpdate d => recordUpdate element parent d
  end.

(** The entry a call computes from the rest of the path, the kind, the
    nested diff found at the first element and the two looked-up values. *)
Definition headEntry (rest : list PathElement) (kind : DiffKind) (nested : ValueDiff)
    (old new : PropertyValue) : exec Entry :=
  match rest with
  | [] =>
      match kind with
      | DiffAdd | DiffAddReplace => Done (EntryAdd new)
      | DiffDelete | DiffDeleteReplace => Done (EntryDelete old)
      | DiffUpdate | DiffUpdateReplace => Done (EntryUpdate (mkValueDiff old new None None))
      | DiffKindOther _ => Fault UnexpectedDiffKind
      end
  | _ :: _ =>
      if IsNull old && negb (IsNull new) then Done (EntryAdd new)
      else if negb (IsNull old) && IsNull new then Done (EntryDelete old)
      else do ed <- addDiff rest kind nested old new; Done (EntryUpdate ed)
  end.

(** Two paths part ways: at some position both have an element and the
    elements differ, so neither path is a prefix of the other. *)
Fixpoint diverge (p q : list PathElement) : bool :=
  match p, q with
  | x :: p', y :: q' => if decide (x = y) then diverge p' q' else true
  | _, _ => false
  end.

(** Two records that the translation can apply in either order: their
    paths part ways and both read the old values from the same side. *)
Definition independent (r1 r2 : string * PropertyDiff) : bool :=
  match parseDiffPath r1.1, parseDiffPath r2.1 with
  | ParseOk p, ParseOk q =>
      diverge p q && Bool.eqb (InputDiff r1.2) (InputDiff r2.2)
  | _, _ => true
  end.

Fixpoint all_independent (records : list (string * PropertyDiff)) : bool :=
  match records with
  | [] => true
  | record :: rest => forallb (independent record) rest && all_independent rest
  end.

(** One of the six kinds. *)
Definition validKind (kind : DiffKind) : bool :=
  match kind with
  | DiffKindOther _ => false
  | _ => true
  end.

(** The path starts with a string key. *)
Definition headIsKey (elements : list PathElement) : bool :=
  match elements with
  | EStr _ :: _ => true
  | _ => false
  end.

(** An update record for [a] and one for [a.b], on a step where [a.b]
    changes from 1 to 2. *)
Definition nestedRecords : list (string * PropertyDiff) :=
  [("a", mkPropertyDiff DiffUpdate false); ("a.b", mkPropertyDiff DiffUpdate false)].
Definition nestedStep : StepEventMetadata :=
  mkStep (Some nestedRecords)
         {["a" := PVObject {["b" := PVNumber 1]}]} ∅
         {["a" := PVObject {["b" := PVNumber 2]}]}.

(** An element that is an integer or a string. *)
Definition isKey (element : PathElement) : bool :=
  match element with
  | EOther => false
  | _ => true
  end.

(** No Sames map holds an entry, on this node and on every node below. *)
Inductive sames_empty : ValueDiff → Prop :=
| sames_empty_node (d : ValueDiff) :
    (∀ a, Array d = Some a → ArrayDiff.Sames a = ∅) →
    (∀ o, Object d = Some o → ObjectDiff.Sames o = ∅) →
    (∀ a i d', Array d = Some a → ArrayDiff.Updates a !! i = Some d' → sames_empty d') →
    (∀ o e d', Object d = Some o → ObjectDiff.Updates o !! e = Some d' → sames_empty d') →
    sames_empty d.

(** A value with nothing below it: null, a boolean, a number or a string. *)
Definition isScalar (v : PropertyValue) : bool :=
  match v with
  | PVNull | PVBool _ | PVNumber _ | PVString _ => true
  | _ => false
  end.

Definition isOpaque (v : PropertyValue) : bool :=
  IsComputed v || IsOutput v || IsSecret v.

(** Replacing opaque contents in an object diff, in the result of a
    translation and in the properties of a step. *)
Definition resealObject (f : PropertyValue → PropertyValue) (o : ObjectDiff.t ValueDiff)
  : ObjectDiff.t ValueDiff :=
  ObjectDiff.mk (reseal f <$> ObjectDiff.Adds o) (reseal f <$> ObjectDiff.Deletes o)
                (reseal f <$> ObjectDiff.Sames o) (resealDiff f <$> ObjectDiff.Updates o).

Definition resealResult (f : PropertyValue → PropertyValue)
    (r : exec (option (ObjectDiff.t ValueDiff))) : exec (option (ObjectDiff.t ValueDiff)) :=
  match r with
  | Done result => Done (resealObject f <$> result)
  | Fault p => Fault p
  end.

Definition resealStep (f : PropertyValue → PropertyValue) (step : StepEventMetadata)
  : StepEventMetadata :=
  mkStep (DetailedDiff step) (reseal f <$> OldOutputs step)
         (reseal f <$> OldInputs step) (reseal f <$> NewInputs step).

(** * Properties *)

(** ** The scanners consume input *)

Lemma scanQuoted_shorter_aux (n : nat) :
  ∀ rest key k after,
    (String.length rest <= n)%nat →
    scanQuoted rest key = Some (k, after) →
    (String.length after < String.length rest)%nat.
Proof.
  induction n as [|n IH]; intros rest key k after Hlen Hscan.
  - destruct rest; simpl in *; [discriminate | lia].
  - destruct rest as [|c rest']; simpl in *; [discriminate|].
    destruct (Ascii.eqb c dquote).
    + inversion Hscan; subst. lia.
    + destruct rest' as [|c' rest'']; [simpl in Hscan; discriminate|].
      destruct (Ascii.eqb c backslash && Ascii.eqb c' dquote).
      * apply IH in Hscan; simpl in *; lia.
      * apply IH in Hscan; simpl in *; lia.
Qed.

Lemma scanQuoted_shorter rest key k after :
  scanQuoted rest key = Some (k, after) →
  (String.length after < String.length rest)%nat.
Proof. apply (scanQuoted_shorter_aux (String.length rest)). lia. Qed.

Lemma IndexRune_lt s c r :
  IndexRune s c = Some r → (r < String.length s)%nat.
Proof.
  revert r. induction s as [|c' s IH]; intros r H; simpl in *; [discriminate|].
  destruct (Ascii.eqb c' c).
  - inversion H; lia.
  - destruct (IndexRune s c) as [n|]; [|discriminate].
    inversion H; subst. specialize (IH n eq_refl). lia.
Qed.

Lemma string_drop_length n s :
  String.length (string_drop n s) = (String.length s - n)%nat.
Proof.
  revert s. induction n as [|n IH]; intros s; simpl.
  - lia.
  - destruct s; simpl; [reflexivity | apply IH].
Qed.

Lemma scanName_length path name tail :
  scanName path = (name, tail) →
  String.length path = (String.length name + String.length tail)%nat.
Proof.
  revert name tail. induction path as [|c rest IH]; intros name tail H; simpl in *.
  - inversion H; reflexivity.
  - destruct (Ascii.eqb c dot || Ascii.eqb c lbracket).
    + inversion H; reflexivity.
    + destruct (scanName rest) as [name' tail'] eqn:E.
      inversion H; subst. simpl. rewrite (IH _ _ eq_refl). reflexivity.
Qed.

Lemma scanName_nonempty c rest name tail :
  Ascii.eqb c dot = false → Ascii.eqb c lbracket = false →
  scanName (String c rest) = (name, tail) →
  name ≠ EmptyString ∧ (String.length tail <= String.length rest)%nat.
Proof.
  intros Hd Hl H. simpl in H. rewrite Hd, Hl in H. simpl in H.
  destruct (scanName rest) as [name' tail'] eqn:E.
  inversion H; subst. split; [discriminate|].
  apply scanName_length in E. lia.
Qed.

(** ** The loop bound of the model is never hit *)

(** One iteration of the loop, with the calls it makes left folded. *)
Lemma parseLoop_step fuel c0 rest elements :
  parseLoop (S fuel) (String c0 rest) elements =
    if Ascii.eqb c0 dot then parseLoop fuel rest elements
    else if Ascii.eqb c0 lbracket then
      match rest with
      | EmptyString => ParsePanic
      | String c1 rest1 =>
          if Ascii.eqb c1 dquote then
            match scanQuoted rest1 EmptyString with
            | None => ParseErr MissingClosingQuote
            | Some (propertyKey, after) =>
                match after with
                | String c2 after' =>
                    if Ascii.eqb c2 rbracket_char
                    then parseLoop fuel after' (elements ++ [EStr propertyKey])
                    else ParseErr MissingClosingBracketProperty
                | EmptyString => ParseErr MissingClosingBracketProperty
                end
            end
          else
            match IndexRune (String c0 rest) rbracket_char with
            | None => ParseErr MissingClosingBracketIndex
            | Some rbracket =>
                match ParseInt (String.substring 1 (rbracket - 1) (String c0 rest)) with
                | None => ParseErr InvalidArrayIndex
                | Some index =>
                    parseLoop fuel (string_drop (S rbracket) (String c0 rest))
                              (elements ++ [EInt index])
                end
            end
      end
    else
      let '(name, tail) := scanName (String c0 rest) in
      parseLoop fuel tail (elements ++ [EStr name]).
Proof. destruct rest; reflexivity. Qed.

Lemma parseLoop_fuel (fuel : nat) :
  ∀ path elements,
    (String.length path <= fuel)%nat →
    parseLoop fuel path elements ≠ ParseOutOfFuel.
Proof.
  induction fuel as [|fuel IH]; intros path elements Hlen.
  - destruct path; simpl in *; [discriminate | lia].
  - destruct path as [|c0 rest]; [discriminate|].
    rewrite parseLoop_step. cbn [String.length] in Hlen.
    destruct (Ascii.eqb c0 dot) eqn:Hdot.
    { apply IH. lia. }
    destruct (Ascii.eqb c0 lbracket) eqn:Hlb.
    + destruct rest as [|c1 rest1]; [discriminate|].
      destruct (Ascii.eqb c1 dquote).
      * destruct (scanQuoted rest1 EmptyString) as [[key after]|] eqn:Hq; [|discriminate].
        apply scanQuoted_shorter in Hq.
        destruct after as [|c2 after']; [discriminate|].
        destruct (Ascii.eqb c2 rbracket_char); [|discriminate].
        apply IH. cbn [String.length] in *. lia.
      * destruct (IndexRune (String c0 (String c1 rest1)) rbracket_char)
          as [r|] eqn:Hr; [|discriminate].
        destruct (ParseInt _); [|discriminate].
        apply IH. rewrite string_drop_length. cbn [String.length] in *. lia.
    + destruct (scanName (String c0 rest)) as [name tail] eqn:Hn.
      apply (scanName_nonempty _ _ _ _ Hdot Hlb) in Hn as [_ Hn].
      apply IH. lia.
Qed.

Lemma parseDiffPath_terminates path : parseDiffPath path ≠ ParseOutOfFuel.
Proof. apply parseLoop_fuel. lia. Qed.

(** ** When the parsed path is empty *)

Lemma parseLoop_elements (fuel : nat) :
  ∀ path elements res,
    parseLoop fuel path elements = ParseOk res →
    ∃ extra, res = (elements ++ extra)%list ∧ (extra = [] ↔ only_dots path = true).
Proof.
  induction fuel as [|fuel IH]; intros path elements res Hres.
  - destruct path; simpl in Hres; [|discriminate].
    inversion Hres; subst. exists []. rewrite app_nil_r. simpl. tauto.
  - destruct path as [|c0 rest].
    { simpl in Hres. inversion Hres; subst. exists [].
      rewrite app_nil_r. simpl. tauto. }
    rewrite parseLoop_step in Hres. cbn [only_dots].
    destruct (Ascii.eqb c0 dot) eqn:Hdot.
    { apply IH in Hres as (extra & -> & Hiff). exists extra. simpl. tauto. }
    assert (Hgrow : ∀ path' x,
              parseLoop fuel path' (elements ++ [x]) = ParseOk res →
              ∃ extra, res = (elements ++ extra)%list ∧
                       (extra = [] ↔ false && only_dots rest = true)).
    { intros path' x H. apply IH in H as (extra & -> & _).
      exists (x :: extra). rewrite <- app_assoc. simpl. split; [reflexivity|].
      split; discriminate. }
    destruct (Ascii.eqb c0 lbracket).
    + destruct rest as [|c1 rest1]; [discriminate|].
      destruct (Ascii.eqb c1 dquote).
      * destruct (scanQuoted rest1 EmptyString) as [[key after]|]; [|discriminate].
        destruct after as [|c2 after']; [discriminate|].
        destruct (Ascii.eqb c2 rbracket_char); [|discriminate].
        eapply Hgrow, Hres.
      * destruct (IndexRune _ _); [|discriminate].
        destruct (ParseInt _); [|discriminate].
        eapply Hgrow, Hres.
    + destruct (scanName _) as [name tail]. eapply Hgrow, Hres.
Qed.

(** Whenever [parseDiffPath] accepts a string, the path it returns is
    empty exactly when the string is made of ['.'] separators only. *)
Lemma parseDiffPath_empty_iff_only_dots (path : string) (elements : list PathElement) :
  parseDiffPath path = ParseOk elements →
  (elements = [] ↔ only_dots path = true).
Proof.
  intros H. apply parseLoop_elements in H as (extra & -> & Hiff).
  simpl. exact Hiff.
Qed.

(** ** Totality *)

(** C6.  On a path whose last byte opens a bracket, [path[1]] is read
    past the end of the string: the parser panics instead of returning
    an error. *)
Theorem parseDiffPath_open_bracket_panics :
  parseDiffPath "[" = ParsePanic ∧ parseDiffPath "a[" = ParsePanic.
Proof. split; reflexivity. Qed.

Lemma string_app_cons (x : ascii) (a b : string) :
  String x a ++ b = String x (a ++ b).
Proof. reflexivity. Qed.

Lemma string_app_assoc (a b c : string) : (a ++ b) ++ c = a ++ (b ++ c).
Proof.
  induction a as [|x a IH]; [reflexivity|].
  rewrite !string_app_cons. by f_equal.
Qed.

Lemma string_suffix_refl s : string_suffix s s.
Proof. by exists EmptyString. Qed.

Lemma string_suffix_cons c t s : string_suffix t s → string_suffix t (String c s).
Proof. intros [p ->]. by exists (String c p). Qed.

Lemma string_suffix_trans a b c :
  string_suffix a b → string_suffix b c → string_suffix a c.
Proof.
  intros [p ->] [q ->]. exists (q ++ p). by rewrite string_app_assoc.
Qed.

Lemma string_drop_suffix n s : string_suffix (string_drop n s) s.
Proof.
  revert s. induction n as [|n IH]; intros s; simpl.
  - apply string_suffix_refl.
  - destruct s; [apply string_suffix_refl | apply string_suffix_cons, IH].
Qed.

Lemma scanQuoted_suffix_aux (n : nat) :
  ∀ rest key k after,
    (String.length rest <= n)%nat →
    scanQuoted rest key = Some (k, after) → string_suffix after rest.
Proof.
  induction n as [|n IH]; intros rest key k after Hlen Hscan.
  - destruct rest; simpl in *; [discriminate | lia].
  - destruct rest as [|c rest']; simpl in *; [discriminate|].
    destruct (Ascii.eqb c dquote).
    + inversion Hscan; subst. apply string_suffix_cons, string_suffix_refl.
    + destruct rest' as [|c' rest'']; [simpl in Hscan; discriminate|].
      destruct (Ascii.eqb c backslash && Ascii.eqb c' dquote).
      * apply IH in Hscan; [|simpl in *; lia].
        by do 2 apply string_suffix_cons.
      * apply IH in Hscan; [|simpl in *; lia].
        by apply string_suffix_cons.
Qed.

Lemma scanQuoted_suffix rest key k after :
  scanQuoted rest key = Some (k, after) → string_suffix after rest.
Proof. apply (scanQuoted_suffix_aux (String.length rest)). lia. Qed.

Lemma scanName_split path name tail :
  scanName path = (name, tail) → path = name ++ tail.
Proof.
  revert name tail. induction path as [|c rest IH]; intros name tail H; simpl in H.
  - by inversion H.
  - destruct (Ascii.eqb c dot || Ascii.eqb c lbracket).
    + by inversion H.
    + destruct (scanName rest) as [name' tail'].
      inversion H; subst. simpl. by rewrite (IH _ _ eq_refl).
Qed.

(** The unchecked read of [path[1]] is the only panic: it arises only on
    a string that ends with an opening bracket. *)
Lemma parseLoop_panic (fuel : nat) :
  ∀ path elements,
    parseLoop fuel path elements = ParsePanic → string_suffix "[" path.
Proof.
  induction fuel as [|fuel IH]; intros path elements H.
  - destruct path; simpl in H; discriminate.
  - destruct path as [|c0 rest]; [simpl in H; discriminate|].
    rewrite parseLoop_step in H.
    destruct (Ascii.eqb c0 dot) eqn:Hdot.
    { apply string_suffix_cons. eapply IH, H. }
    destruct (Ascii.eqb c0 lbracket) eqn:Hlb.
    + destruct rest as [|c1 rest1].
      { apply Ascii.eqb_eq in Hlb as ->. apply string_suffix_refl. }
      destruct (Ascii.eqb c1 dquote).
      * destruct (scanQuoted rest1 EmptyString) as [[key after]|] eqn:Hq; [|discriminate].
        destruct after as [|c2 after']; [discriminate|].
        destruct (Ascii.eqb c2 rbracket_char); [|discriminate].
        apply IH in H. apply scanQuoted_suffix in Hq.
        do 2 apply string_suffix_cons.
        eapply string_suffix_trans; [|exact Hq].
        by apply string_suffix_cons.
      * destruct (IndexRune _ _) as [r|] eqn:Hr; [|discriminate].
        destruct (ParseInt _); [|discriminate].
        apply IH in H.
        eapply string_suffix_trans; [exact H | apply string_drop_suffix].
    + destruct (scanName _) as [name tail] eqn:Hn.
      apply IH in H. apply scanName_split in Hn. rewrite Hn.
      eapply string_suffix_trans; [exact H|]. by exists name.
Qed.

(** Apart from that panic, parsing returns a path or an error. *)
Lemma parseDiffPath_outcomes (path : string) :
  (∃ elements, parseDiffPath path = ParseOk elements) ∨
  (∃ err, parseDiffPath path = ParseErr err) ∨
  (parseDiffPath path = ParsePanic ∧ string_suffix "[" path).
Proof.
  destruct (parseDiffPath path) as [els|err| |] eqn:H.
  - left. eauto.
  - right; left. eauto.
  - right; right. split; [reflexivity|]. eapply parseLoop_panic, H.
  - by apply parseDiffPath_terminates in H.
Qed.

(** ** Quoted keys *)

Lemma append_byte_app (acc : string) (c : ascii) (k : string) :
  append_byte acc c ++ k = acc ++ String c k.
Proof. unfold append_byte. by rewrite string_app_assoc. Qed.

Lemma string_app_empty_r (s : string) : s ++ EmptyString = s.
Proof.
  induction s as [|c s IH]; [reflexivity|].
  rewrite string_app_cons. by f_equal.
Qed.

Lemma scanQuoted_escapeQuotes (key : string) :
  ∀ acc rest,
    ends_with_backslash key = false →
    scanQuoted (escapeQuotes key ++ String dquote rest) acc = Some (acc ++ key, rest).
Proof.
  induction key as [|c key IH]; intros acc rest Hend.
  - cbn. by rewrite string_app_empty_r.
  - cbn [escapeQuotes].
    destruct (Ascii.eqb c dquote) eqn:Hc.
    + apply Ascii.eqb_eq in Hc as ->.
      rewrite !string_app_cons. cbn [scanQuoted].
      replace (Ascii.eqb backslash dquote) with false by reflexivity.
      replace (Ascii.eqb backslash backslash && Ascii.eqb dquote dquote)
        with true by reflexivity.
      rewrite IH, append_byte_app; [reflexivity|].
      destruct key; [reflexivity | exact Hend].
    + rewrite string_app_cons. cbn [scanQuoted]. rewrite Hc.
      assert (Hnext : scanQuoted (escapeQuotes key ++ String dquote rest)
                        (append_byte acc c) = Some (acc ++ String c key, rest)).
      { rewrite IH, append_byte_app; [reflexivity|].
        destruct key; [reflexivity | exact Hend]. }
      destruct key as [|d key'].
      * cbn in Hend. cbn [escapeQuotes]. cbn [escapeQuotes] in Hnext.
        change (EmptyString ++ String dquote rest) with (String dquote rest) in *.
        rewrite Hend. exact Hnext.
      * cbn [escapeQuotes] in *.
        destruct (Ascii.eqb d dquote) eqn:Hd; rewrite string_app_cons in *.
        -- replace (Ascii.eqb backslash dquote) with false by reflexivity.
           rewrite andb_false_r. exact Hnext.
        -- rewrite Hd, andb_false_r. exact Hnext.
Qed.

(** C8.  The bracketed quoted key spelled a, backslash, quote, b parses to
    the single key a, quote, b; in general the quoted spelling of a key
    that does not end with a backslash parses back to that key: an escaped
    quote becomes a quote and every other byte is copied. *)
Theorem parseDiffPath_quoted_key :
  parseDiffPath (String lbracket (String dquote
      ("a\" ++ String dquote ("b" ++ String dquote "]")))) =
    ParseOk [EStr ("a" ++ String dquote "b")] ∧
  ∀ key, ends_with_backslash key = false →
         parseDiffPath (quotedAccessor key) = ParseOk [EStr key].
Proof.
  split; [reflexivity|].
  intros key Hend. unfold parseDiffPath, quotedAccessor.
  cbn [String.length]. rewrite parseLoop_step.
  replace (Ascii.eqb lbracket dot) with false by reflexivity.
  replace (Ascii.eqb lbracket lbracket) with true by reflexivity.
  replace (Ascii.eqb dquote dquote) with true by reflexivity.
  rewrite scanQuoted_escapeQuotes by exact Hend.
  replace (Ascii.eqb rbracket_char rbracket_char) with true by reflexivity.
  reflexivity.
Qed.

Lemma parseDiffPath_quoted_key_witness :
  parseDiffPath (quotedAccessor ("x\y" ++ String dquote "z")) =
    ParseOk [EStr ("x\y" ++ String dquote "z")].
Proof.
  apply (proj2 parseDiffPath_quoted_key ("x\y" ++ String dquote "z")).
  reflexivity.
Defined.

(** ** Parse errors *)

(** C9.  An unterminated quoted key is reported as the missing closing
    quote error and an unterminated index as the missing closing bracket
    error; neither yields a path. *)
Theorem parseDiffPath_unterminated :
  parseDiffPath (String lbracket (String dquote "abc")) = ParseErr MissingClosingQuote ∧
  parseDiffPath "[3" = ParseErr MissingClosingBracketIndex.
Proof. split; reflexivity. Qed.

(** ** The path grammar *)

Lemma string_length_app (a b : string) :
  String.length (a ++ b) = (String.length a + String.length b)%nat.
Proof.
  induction a as [|c a IH]; [reflexivity|].
  rewrite string_app_cons. cbn [String.length]. by rewrite IH.
Qed.

Lemma IndexRune_app (c : ascii) (a s : string) :
  no_byte c a = true → IndexRune (a ++ String c s) c = Some (String.length a).
Proof.
  induction a as [|x a IH]; intros H.
  - change (EmptyString ++ String c s) with (String c s).
    cbn [IndexRune String.length]. by rewrite Ascii.eqb_refl.
  - rewrite string_app_cons. cbn [IndexRune String.length]. cbn in H.
    apply andb_true_iff in H as [Hx Ha].
    apply negb_true_iff in Hx. rewrite Hx, (IH Ha). reflexivity.
Qed.

Lemma substring_app (a s : string) :
  String.substring 0 (String.length a) (a ++ s) = a.
Proof.
  induction a as [|x a IH].
  - destruct s; reflexivity.
  - rewrite string_app_cons. cbn [String.length String.substring]. by rewrite IH.
Qed.

Lemma string_drop_app (a s : string) :
  string_drop (String.length a) (a ++ s) = s.
Proof.
  induction a as [|x a IH]; [reflexivity|].
  rewrite string_app_cons. cbn [String.length string_drop]. exact IH.
Qed.

Lemma scanName_app (name s : string) :
  all_name_bytes name = true → at_boundary s = true →
  scanName (name ++ s) = (name, s).
Proof.
  intros Hname Hs. induction name as [|c name IH].
  - change (EmptyString ++ s) with s. destruct s as [|c s]; [reflexivity|].
    cbn in Hs. unfold name_byte in Hs. apply negb_true_iff, negb_false_iff in Hs.
    cbn [scanName]. by rewrite Hs.
  - rewrite string_app_cons. cbn in Hname.
    apply andb_true_iff in Hname as [Hc Hname].
    unfold name_byte in Hc. apply negb_true_iff in Hc.
    cbn [scanName]. rewrite Hc, (IH Hname). reflexivity.
Qed.

Lemma int_byte_not_rbracket c : int_byte c = true → Ascii.eqb c rbracket_char = false.
Proof.
  intros H. destruct (Ascii.eqb c rbracket_char) eqn:E; [|reflexivity].
  apply Ascii.eqb_eq in E as ->. vm_compute in H. discriminate.
Qed.

Lemma int_byte_not_dquote c : int_byte c = true → Ascii.eqb c dquote = false.
Proof.
  intros H. destruct (Ascii.eqb c dquote) eqn:E; [|reflexivity].
  apply Ascii.eqb_eq in E as ->. vm_compute in H. discriminate.
Qed.

Lemma parse_digits_bytes (s : string) : ∀ acc n,
  parse_digits s acc = Some n → all_int_bytes s = true.
Proof.
  induction s as [|c s IH]; intros acc n H; [reflexivity|].
  cbn in H. cbn [all_int_bytes]. unfold int_byte.
  destruct (digit_value c) as [d|] eqn:Hd; [|discriminate].
  rewrite (IH _ _ H). rewrite bool_decide_eq_true_2 by eauto.
  by rewrite orb_true_r.
Qed.

Lemma ParseInt_bytes (s : string) (n : Z) :
  ParseInt s = Some n → s ≠ EmptyString ∧ all_int_bytes s = true.
Proof.
  destruct s as [|c r]; [discriminate|]. intros H. split; [discriminate|].
  unfold ParseInt in H. cbn [all_int_bytes]. unfold int_byte at 1.
  destruct (Ascii.eqb c plus_char) eqn:Hp.
  { destruct r; [discriminate|].
    destruct (parse_digits _ 0) eqn:Hd; [|discriminate].
    by rewrite (parse_digits_bytes _ _ _ Hd). }
  destruct (Ascii.eqb c minus_char) eqn:Hm.
  { destruct r; [discriminate|].
    destruct (parse_digits _ 0) eqn:Hd; [|discriminate].
    by rewrite (parse_digits_bytes _ _ _ Hd). }
  destruct (parse_digits (String c r) 0) eqn:Hd; [|discriminate].
  apply parse_digits_bytes in Hd. cbn [all_int_bytes] in Hd.
  apply andb_true_iff in Hd as [Hc Hr]. unfold int_byte in Hc.
  rewrite Hp, Hm in Hc. cbn in Hc. by rewrite Hc, Hr.
Qed.

Lemma all_int_bytes_no_rbracket s :
  all_int_bytes s = true → no_byte rbracket_char s = true.
Proof.
  induction s as [|c s IH]; [reflexivity|]. cbn. intros H.
  apply andb_true_iff in H as [Hc Hs].
  by rewrite (int_byte_not_rbracket _ Hc), (IH Hs).
Qed.

Lemma string_drop_app_cons (a : string) (c : ascii) (s : string) :
  string_drop (S (String.length a)) (a ++ String c s) = s.
Proof.
  induction a as [|x a IH]; [reflexivity|].
  rewrite string_app_cons. cbn [String.length string_drop]. exact IH.
Qed.

(** One iteration over a bracketed index. *)
Lemma parseLoop_index fuel digits index s elements :
  ParseInt digits = Some index →
  parseLoop (S fuel) (String lbracket (digits ++ String rbracket_char s)) elements =
    parseLoop fuel s (elements ++ [EInt index]).
Proof.
  intros Hint. pose proof (ParseInt_bytes _ _ Hint) as [Hnonempty Hbytes].
  destruct digits as [|c1 digits]; [done|].
  rewrite string_app_cons, parseLoop_step.
  replace (Ascii.eqb lbracket dot) with false by reflexivity.
  replace (Ascii.eqb lbracket lbracket) with true by reflexivity.
  assert (Hc1 : Ascii.eqb c1 dquote = false).
  { apply int_byte_not_dquote. cbn in Hbytes. by apply andb_true_iff in Hbytes as []. }
  rewrite Hc1.
  pose proof (IndexRune_app rbracket_char (String lbracket (String c1 digits)) s) as Hidx.
  rewrite !string_app_cons in Hidx. rewrite Hidx; clear Hidx.
  2:{ cbn [no_byte]. replace (Ascii.eqb lbracket rbracket_char) with false by reflexivity.
      apply (all_int_bytes_no_rbracket _ Hbytes). }
  cbn [String.length].
  assert (Hsub : String.substring 1 (S (S (String.length digits)) - 1)
                   (String lbracket (String c1 (digits ++ String rbracket_char s)))
                 = String c1 digits).
  { cbn [Nat.sub String.substring]. by rewrite substring_app. }
  assert (Hdrop : string_drop (S (S (S (String.length digits))))
                    (String lbracket (String c1 (digits ++ String rbracket_char s)))
                  = s).
  { exact (string_drop_app_cons (String lbracket (String c1 digits)) rbracket_char s). }
  rewrite Hsub, Hint, Hdrop. reflexivity.
Qed.

(** One iteration over a bracketed quoted key. *)
Lemma parseLoop_key fuel key s elements :
  ends_with_backslash key = false →
  parseLoop (S fuel) (quotedAccessor key ++ s) elements =
    parseLoop fuel s (elements ++ [EStr key]).
Proof.
  intros Hkey. unfold quotedAccessor.
  rewrite !string_app_cons, string_app_assoc, !string_app_cons.
  change (EmptyString ++ s) with s.
  rewrite parseLoop_step.
  replace (Ascii.eqb lbracket dot) with false by reflexivity.
  replace (Ascii.eqb lbracket lbracket) with true by reflexivity.
  replace (Ascii.eqb dquote dquote) with true by reflexivity.
  rewrite scanQuoted_escapeQuotes by exact Hkey.
  replace (Ascii.eqb rbracket_char rbracket_char) with true by reflexivity.
  reflexivity.
Qed.

(** One iteration over a bare name. *)
Lemma parseLoop_name fuel name s elements :
  name ≠ EmptyString → all_name_bytes name = true → at_boundary s = true →
  parseLoop (S fuel) (name ++ s) elements =
    parseLoop fuel s (elements ++ [EStr name]).
Proof.
  intros Hne Hname Hs. pose proof (scanName_app _ _ Hname Hs) as Hscan.
  destruct name as [|c name]; [done|].
  rewrite string_app_cons in *. rewrite parseLoop_step, Hscan.
  cbn in Hname. apply andb_true_iff in Hname as [Hc _].
  unfold name_byte in Hc. apply negb_true_iff, orb_false_iff in Hc as [-> ->].
  reflexivity.
Qed.

Lemma quotedAccessor_length key :
  (2 <= String.length (quotedAccessor key))%nat.
Proof. unfold quotedAccessor. cbn [String.length]. lia. Qed.

(** A conforming string is parsed to the end, whatever was collected
    before it. *)
Lemma conforms_parseLoop (s : string) :
  conforms s →
  ∀ fuel elements, (String.length s <= fuel)%nat →
    ∃ extra, parseLoop fuel s elements = ParseOk (elements ++ extra).
Proof.
  induction 1 as [|s _ IH|key s Hkey _ IH|digits index s Hint _ IH|name s Hne Hname Hs _ IH];
    intros fuel elements Hfuel.
  - exists []. rewrite app_nil_r. by destruct fuel.
  - destruct fuel as [|fuel]; [cbn in Hfuel; lia|].
    rewrite parseLoop_step.
    replace (Ascii.eqb dot dot) with true by reflexivity.
    apply IH. cbn in Hfuel. lia.
  - rewrite string_length_app in Hfuel.
    pose proof (quotedAccessor_length key).
    destruct fuel as [|fuel]; [lia|].
    rewrite parseLoop_key by exact Hkey.
    destruct (IH fuel (elements ++ [EStr key])%list) as [extra Hex]; [lia|].
    exists (EStr key :: extra). rewrite Hex, <- app_assoc. reflexivity.
  - cbn [String.length] in Hfuel. rewrite string_length_app in Hfuel.
    cbn [String.length] in Hfuel.
    destruct fuel as [|fuel]; [lia|].
    rewrite (parseLoop_index _ _ _ _ _ Hint).
    destruct (IH fuel (elements ++ [EInt index])%list) as [extra Hex]; [lia|].
    exists (EInt index :: extra). rewrite Hex, <- app_assoc. reflexivity.
  - rewrite string_length_app in Hfuel.
    destruct name as [|c name]; [done|]. cbn [String.length] in Hfuel.
    destruct fuel as [|fuel]; [lia|].
    rewrite parseLoop_name by done.
    destruct (IH fuel (elements ++ [EStr (String c name)])%list) as [extra Hex]; [lia|].
    exists (EStr (String c name) :: extra). rewrite Hex, <- app_assoc. reflexivity.
Qed.

(** C5, as amended.  A string that conforms to the path grammar and is
    not made of ['.'] separators only is parsed without error to a
    non-empty path. *)
Theorem conforms_parses_nonempty (path : string) :
  conforms path → only_dots path = false →
  ∃ elements, parseDiffPath path = ParseOk elements ∧ elements ≠ [].
Proof.
  intros Hconf Hdots.
  destruct (conforms_parseLoop _ Hconf (String.length path) []) as [extra Hex]; [lia|].
  exists extra. split; [exact Hex|].
  intros ->. apply parseDiffPath_empty_iff_only_dots in Hex.
  destruct Hex as [Hex _]. rewrite Hex in Hdots; done.
Qed.

Lemma conforms_parses_nonempty_witness :
  ∃ elements, parseDiffPath "a[0]" = ParseOk elements ∧ elements ≠ [].
Proof.
  apply (conforms_parses_nonempty "a[0]"); [|reflexivity].
  apply (conforms_name "a" "[0]"); [discriminate | reflexivity | reflexivity |].
  apply (conforms_index "0" 0 ""); [reflexivity | apply conforms_end].
Defined.

(** A lone separator conforms to the grammar, is not the empty string, and
    is parsed to the empty path. *)
Lemma conforms_lone_dot :
  conforms "." ∧ "." ≠ EmptyString ∧ parseDiffPath "." = ParseOk [].
Proof.
  split; [apply conforms_separator, conforms_end|].
  split; [discriminate | reflexivity].
Qed.

(** ** What the parser accepts conforms to the grammar *)

Lemma scanQuoted_inv_aux (n : nat) :
  ∀ rest acc k after,
    (String.length rest <= n)%nat →
    scanQuoted rest acc = Some (k, after) →
    ∃ key, k = acc ++ key ∧ rest = escapeQuotes key ++ String dquote after ∧
           ends_with_backslash key = false.
Proof.
  induction n as [|n IH]; intros rest acc k after Hlen Hscan.
  - destruct rest; [discriminate | cbn in Hlen; lia].
  - destruct rest as [|c rest']; [discriminate|]. cbn [scanQuoted] in Hscan.
    cbn [String.length] in Hlen.
    destruct (Ascii.eqb c dquote) eqn:Hc.
    + apply Ascii.eqb_eq in Hc as ->. injection Hscan as <- <-.
      exists EmptyString. by rewrite string_app_empty_r.
    + destruct rest' as [|c' rest'']; [discriminate|].
      cbn [String.length] in Hlen.
      destruct (Ascii.eqb c backslash && Ascii.eqb c' dquote) eqn:Hesc.
      * apply andb_true_iff in Hesc as [Hb Hq].
        apply Ascii.eqb_eq in Hb as ->. apply Ascii.eqb_eq in Hq as ->.
        apply IH in Hscan as (key & -> & -> & Hend); [|lia].
        exists (String dquote key). rewrite append_byte_app.
        split; [reflexivity|]. split; [reflexivity|].
        destruct key; [reflexivity | exact Hend].
      * apply IH in Hscan as (key & -> & Hrest & Hend); [|cbn [String.length]; lia].
        exists (String c key). rewrite append_byte_app.
        split; [reflexivity|]. cbn [escapeQuotes]. rewrite Hc, string_app_cons, <- Hrest.
        split; [reflexivity|].
        destruct key as [|d key']; [|exact Hend].
        cbn [ends_with_backslash].
        change (escapeQuotes "" ++ String dquote after) with (String dquote after) in Hrest.
        injection Hrest as -> _.
        replace (Ascii.eqb dquote dquote) with true in Hesc by reflexivity.
        by rewrite andb_true_r in Hesc.
Qed.

Lemma scanQuoted_inv rest k after :
  scanQuoted rest EmptyString = Some (k, after) →
  rest = escapeQuotes k ++ String dquote after ∧ ends_with_backslash k = false.
Proof.
  intros H. apply (scanQuoted_inv_aux (String.length rest)) in H as (key & -> & ? & ?);
    [done | lia].
Qed.

Lemma IndexRune_split (s : string) (c : ascii) : ∀ r,
  IndexRune s c = Some r →
  s = String.substring 0 r s ++ String c (string_drop (S r) s).
Proof.
  induction s as [|x s IH]; intros r H; [discriminate|].
  cbn [IndexRune] in H. destruct (Ascii.eqb x c) eqn:Hx.
  - apply Ascii.eqb_eq in Hx as ->. injection H as <-. reflexivity.
  - destruct (IndexRune s c) as [r'|]; [|discriminate]. injection H as <-.
    cbn [String.substring string_drop]. rewrite string_app_cons.
    f_equal. exact (IH r' eq_refl).
Qed.

Lemma scanName_inv (path : string) : ∀ name tail,
  scanName path = (name, tail) →
  all_name_bytes name = true ∧ at_boundary tail = true.
Proof.
  induction path as [|c rest IH]; intros name tail H; cbn [scanName] in H.
  - by injection H as <- <-.
  - destruct (Ascii.eqb c dot || Ascii.eqb c lbracket) eqn:Hc.
    + injection H as <- <-. split; [reflexivity|].
      cbn. unfold name_byte. by rewrite Hc.
    + destruct (scanName rest) as [name' tail'].
      injection H as <- <-. destruct (IH _ _ eq_refl) as [Hn Ht].
      split; [|exact Ht]. cbn. unfold name_byte. by rewrite Hc, Hn.
Qed.

Lemma IndexRune_bracket (rest : string) (r : nat) :
  IndexRune (String lbracket rest) rbracket_char = Some r →
  ∃ r', r = S r' ∧ IndexRune rest rbracket_char = Some r' ∧
        String.substring 1 (r - 1) (String lbracket rest) = String.substring 0 r' rest ∧
        string_drop (S r) (String lbracket rest) = string_drop (S r') rest.
Proof.
  cbn [IndexRune].
  replace (Ascii.eqb lbracket rbracket_char) with false by reflexivity.
  destruct (IndexRune rest rbracket_char) as [r'|]; [|discriminate].
  intros [= <-]. exists r'. split; [reflexivity|]. split; [reflexivity|].
  split; [|reflexivity].
  cbn [String.substring]. by rewrite Nat.sub_succ, Nat.sub_0_r.
Qed.

Lemma parseLoop_conforms (fuel : nat) :
  ∀ path elements res,
    parseLoop fuel path elements = ParseOk res → conforms path.
Proof.
  induction fuel as [|fuel IH]; intros path elements res H.
  - destruct path; [apply conforms_end | discriminate].
  - destruct path as [|c0 rest]; [apply conforms_end|].
    rewrite parseLoop_step in H.
    destruct (Ascii.eqb c0 dot) eqn:Hdot.
    { apply Ascii.eqb_eq in Hdot as ->. apply conforms_separator. eapply IH, H. }
    destruct (Ascii.eqb c0 lbracket) eqn:Hlb.
    + apply Ascii.eqb_eq in Hlb as ->.
      destruct rest as [|c1 rest1]; [discriminate|].
      destruct (Ascii.eqb c1 dquote) eqn:Hq.
      * apply Ascii.eqb_eq in Hq as ->.
        destruct (scanQuoted rest1 EmptyString) as [[key after]|] eqn:Hscan; [|discriminate].
        destruct after as [|c2 after']; [discriminate|].
        destruct (Ascii.eqb c2 rbracket_char) eqn:Hr; [|discriminate].
        apply Ascii.eqb_eq in Hr as ->.
        apply scanQuoted_inv in Hscan as [-> Hend].
        apply IH in H.
        pose proof (conforms_key key after' Hend H) as Hc.
        unfold quotedAccessor in Hc.
        rewrite !string_app_cons, string_app_assoc, !string_app_cons in Hc.
        exact Hc.
      * destruct (IndexRune _ _) as [r|] eqn:Hidx; [|discriminate].
        destruct (ParseInt _) as [index|] eqn:Hint; [|discriminate].
        apply IH in H.
        apply IndexRune_bracket in Hidx as (r' & -> & Hidx & Hsub & Hdrop).
        rewrite Hsub in Hint. rewrite Hdrop in H.
        rewrite (IndexRune_split _ _ _ Hidx).
        by apply (conforms_index _ index).
    + destruct (scanName _) as [name tail] eqn:Hn.
      apply IH in H.
      pose proof (scanName_split _ _ _ Hn) as ->.
      pose proof (scanName_nonempty _ _ _ _ Hdot Hlb Hn) as [Hne _].
      apply scanName_inv in Hn as [Hname Htail].
      by apply conforms_name.
Qed.

(** The parser accepts exactly the strings of the grammar. *)
Lemma parseDiffPath_accepts_iff_conforms (path : string) :
  (∃ elements, parseDiffPath path = ParseOk elements) ↔ conforms path.
Proof.
  split.
  - intros [elements H]. eapply parseLoop_conforms, H.
  - intros H. destruct (conforms_parseLoop _ H (String.length path) []) as [extra Hex]; [lia|].
    by exists extra.
Qed.

(** A string outside the grammar never yields a path: parsing it ends in
    an error or, when it ends with an opening bracket, possibly in the
    panic. *)
Lemma parseDiffPath_malformed (path : string) :
  ¬ conforms path →
  (∃ err, parseDiffPath path = ParseErr err) ∨
  (parseDiffPath path = ParsePanic ∧ string_suffix "[" path).
Proof.
  intros Hmal. destruct (parseDiffPath_outcomes path) as [Hok|H]; [|exact H].
  by apply parseDiffPath_accepts_iff_conforms in Hok.
Qed.

(** ** Property lookup *)

Lemma getProperty_reseal f key v :
  getProperty key (reseal f v) = reseal f (getProperty key v).
Proof.
  destruct v as [| | | |elems|props|e|e|e]; try reflexivity.
  - destruct key as [i| |]; try reflexivity.
    unfold getProperty. cbn [reseal IsArray ArrayValue]. rewrite length_map.
    destruct ((i <? 0) || (Z.of_nat (length elems) <=? i)) eqn:E; [reflexivity|].
    change PVNull with (reseal f PVNull) at 1. apply map_nth.
  - destruct key as [|k|]; try reflexivity.
    unfold getProperty. cbn [reseal IsArray IsObject ObjectValue]. unfold map_get.
    rewrite lookup_fmap. by destruct (props !! k).
Qed.

(** C7.  Looking up any key in a computed, output or secret value gives
    that value back, contents included; and a lookup in any value commutes
    with every replacement of the contents of the opaque values in it, so
    it does not depend on what they contain. *)
Theorem getProperty_opaque (key : PathElement) (element : PropertyValue) :
  getProperty key (PVComputed element) = PVComputed element ∧
  getProperty key (PVOutput element) = PVOutput element ∧
  getProperty key (PVSecret element) = PVSecret element ∧
  ∀ f v, getProperty key (reseal f v) = reseal f (getProperty key v).
Proof. repeat split. intros f v. apply getProperty_reseal. Qed.

(** The same, stated with the predicates the code tests. *)
Lemma getProperty_IsOpaque (key : PathElement) (v : PropertyValue) :
  IsComputed v || IsOutput v || IsSecret v = true → getProperty key v = v.
Proof. destruct v; simpl; intros H; try discriminate; reflexivity. Qed.

(** C10.  [[-1]] and [[3]] parse to the integers -1 and 3, as does every
    bracketed text that [ParseInt] reads as an integer, negative or not;
    in an array, an index within range selects that element, and a
    negative index, an index past the end or a key that is not an integer
    selects nothing. *)
Theorem negative_index_parses_and_is_absent :
  parseDiffPath "[-1]" = ParseOk [EInt (-1)] ∧
  parseDiffPath "[3]" = ParseOk [EInt 3] ∧
  (∀ digits index, ParseInt digits = Some index →
     parseDiffPath (String lbracket (digits ++ "]")) = ParseOk [EInt index]) ∧
  ∀ (elems : list PropertyValue),
    (∀ index, index < 0 → getProperty (EInt index) (PVArray elems) = PVNull) ∧
    (∀ index, Z.of_nat (length elems) <= index →
              getProperty (EInt index) (PVArray elems) = PVNull) ∧
    (∀ name, getProperty (EStr name) (PVArray elems) = PVNull) ∧
    getProperty EOther (PVArray elems) = PVNull ∧
    (∀ index, 0 <= index < Z.of_nat (length elems) →
              elems !! Z.to_nat index = Some (getProperty (EInt index) (PVArray elems))).
Proof.
  split; [reflexivity|]. split; [reflexivity|].
  split.
  { intros digits index Hint. unfold parseDiffPath.
    cbn [String.length]. rewrite (parseLoop_index _ _ _ _ _ Hint).
    by destruct (String.length _). }
  intros elems. repeat split.
  - intros index Hneg. unfold getProperty. simpl.
    destruct (index <? 0) eqn:E; [reflexivity | lia].
  - intros index Hge. unfold getProperty. simpl.
    destruct (Z.of_nat (length elems) <=? index) eqn:E; [|lia].
    by rewrite orb_true_r.
  - intros index [Hlo Hhi]. unfold getProperty. simpl.
    destruct (index <? 0) eqn:E1; [lia|].
    destruct (Z.of_nat (length elems) <=? index) eqn:E2; [lia|]. simpl.
    assert (Hn : (Z.to_nat index < length elems)%nat) by lia.
    destruct (lookup_lt_is_Some_2 elems _ Hn) as [x Hx].
    rewrite Hx. f_equal. symmetry. apply nth_lookup_Some with (d := PVNull), Hx.
Qed.

Lemma negative_index_parses_and_is_absent_witness :
  getProperty (EInt (-1)) (PVArray [PVNumber 7; PVBool true]) = PVNull ∧
  getProperty (EInt 2) (PVArray [PVNumber 7; PVBool true]) = PVNull ∧
  [PVNumber 7; PVBool true] !! Z.to_nat 1 =
    Some (getProperty (EInt 1) (PVArray [PVNumber 7; PVBool true])).
Proof.
  destruct negative_index_parses_and_is_absent as (_ & _ & _ & H).
  destruct (H [PVNumber 7; PVBool true]) as (Hneg & Hge & _ & _ & Hin).
  split; [apply Hneg; lia|]. split; [apply Hge; simpl; lia|].
  apply Hin. simpl. lia.
Defined.

(** ** What one call of addDiff records *)

(** What the recorded entries look like from outside. *)
Lemma recordAdd_lookup_int i parent v :
  ∃ a, Array (recordAdd (EInt i) parent v) = Some a ∧
       ArrayDiff.Adds a !! i = Some v ∧
       ArrayDiff.Deletes a = ArrayDiff.Deletes (ensureArray parent) ∧
       ArrayDiff.Updates a = ArrayDiff.Updates (ensureArray parent) ∧
       Object (recordAdd (EInt i) parent v) = Object parent.
Proof. eexists. split; [reflexivity|]. simpl. by rewrite lookup_insert_eq. Qed.

Lemma recordAdd_lookup_str e parent v :
  ∃ o, Object (recordAdd (EStr e) parent v) = Some o ∧
       ObjectDiff.Adds o !! e = Some v ∧
       ObjectDiff.Deletes o = ObjectDiff.Deletes (ensureObject parent) ∧
       ObjectDiff.Updates o = ObjectDiff.Updates (ensureObject parent) ∧
       Array (recordAdd (EStr e) parent v) = Array parent.
Proof. eexists. split; [reflexivity|]. simpl. by rewrite lookup_insert_eq. Qed.

Lemma recordDelete_lookup_str e parent v :
  ∃ o, Object (recordDelete (EStr e) parent v) = Some o ∧
       ObjectDiff.Deletes o !! e = Some v ∧
       ObjectDiff.Adds o = ObjectDiff.Adds (ensureObject parent) ∧
       ObjectDiff.Updates o = ObjectDiff.Updates (ensureObject parent) ∧
       Array (recordDelete (EStr e) parent v) = Array parent.
Proof. eexists. split; [reflexivity|]. simpl. by rewrite lookup_insert_eq. Qed.

Lemma recordUpdate_lookup_str e parent d :
  ∃ o, Object (recordUpdate (EStr e) parent d) = Some o ∧
       ObjectDiff.Updates o !! e = Some d ∧
       ObjectDiff.Adds o = ObjectDiff.Adds (ensureObject parent) ∧
       ObjectDiff.Deletes o = ObjectDiff.Deletes (ensureObject parent) ∧
       Array (recordUpdate (EStr e) parent d) = Array parent.
Proof. eexists. split; [reflexivity|]. simpl. by rewrite lookup_insert_eq. Qed.

Lemma recordAdd_inAdds (element : PathElement) (v : PropertyValue) (parent : ValueDiff) :
  element ≠ EOther → inAdds element v parent (recordAdd element parent v).
Proof.
  intros Hkey.
  destruct parent as [? ? [[? ? ? ?]|] [[? ? ? ?]|]];
    destruct element as [i|e|]; [| |done| | |done| | |done| | |done];
    (split; [split; [reflexivity|]; split; [reflexivity|];
             split; [split; [eexists|]; reflexivity|];
             split; [intros [j|s|]; reflexivity|];
             intros [j|s|] Hk; cbn;
               rewrite ?lookup_insert_ne by congruence; rewrite ?lookup_empty;
               repeat split; reflexivity|]);
    cbn; rewrite lookup_insert_eq, ?lookup_empty; repeat split; reflexivity.
Qed.

Lemma recordDelete_inDeletes (element : PathElement) (v : PropertyValue)
    (parent : ValueDiff) :
  element ≠ EOther → inDeletes element v parent (recordDelete element parent v).
Proof.
  intros Hkey.
  destruct parent as [? ? [[? ? ? ?]|] [[? ? ? ?]|]];
    destruct element as [i|e|]; [| |done| | |done| | |done| | |done];
    (split; [split; [reflexivity|]; split; [reflexivity|];
             split; [split; [eexists|]; reflexivity|];
             split; [intros [j|s|]; reflexivity|];
             intros [j|s|] Hk; cbn;
               rewrite ?lookup_insert_ne by congruence; rewrite ?lookup_empty;
               repeat split; reflexivity|]);
    cbn; rewrite lookup_insert_eq, ?lookup_empty; repeat split; reflexivity.
Qed.

Lemma recordUpdate_inUpdates (element : PathElement) (d : ValueDiff)
    (parent : ValueDiff) :
  element ≠ EOther → inUpdates element d parent (recordUpdate element parent d).
Proof.
  intros Hkey.
  destruct parent as [? ? [[? ? ? ?]|] [[? ? ? ?]|]];
    destruct element as [i|e|]; [| |done| | |done| | |done| | |done];
    (split; [split; [reflexivity|]; split; [reflexivity|];
             split; [split; [eexists|]; reflexivity|];
             split; [intros [j|s|]; reflexivity|];
             intros [j|s|] Hk; cbn;
               rewrite ?lookup_insert_ne by congruence; rewrite ?lookup_empty;
               repeat split; reflexivity|]);
    cbn; rewrite lookup_insert_eq, ?lookup_empty; repeat split; reflexivity.
Qed.

Lemma nestedDiff_fetched (element : PathElement) (parent : ValueDiff) :
  nestedDiff element parent = fetched element parent.
Proof.
  destruct parent as [? ? [[? ? ? ?]|] [[? ? ? ?]|]];
    destruct element as [i|e|]; try reflexivity;
    unfold fetched, nestedDiff, arrayUpdate, objectUpdate; cbn;
    by rewrite lookup_empty.
Qed.

Lemma nodeAt_reached (prefix : list PathElement) :
  ∀ parent, nodeAt prefix parent = reached prefix parent.
Proof.
  induction prefix as [|element prefix IH]; intros parent; [reflexivity|].
  cbn [nodeAt reached]. by rewrite nestedDiff_fetched, IH.
Qed.

Lemma walkable_cons (element : PathElement) (prefix : list PathElement)
    (oldParent newParent : PropertyValue) :
  walkable (element :: prefix) oldParent newParent = true →
  element ≠ EOther ∧
  walkable prefix (getProperty element oldParent) (getProperty element newParent) = true.
Proof.
  cbn [walkable]. intros H.
  apply andb_true_iff in H as [H Hrest].
  apply andb_true_iff in H as [Hkey _].
  split; [by destruct element | exact Hrest].
Qed.

Lemma plug_replacedAt (prefix : list PathElement) :
  ∀ parent inner oldParent newParent,
    walkable prefix oldParent newParent = true →
    replacedAt prefix parent (plug prefix parent inner) inner.
Proof.
  induction prefix as [|element prefix IH];
    intros parent inner oldParent newParent Hwalk; [reflexivity|].
  apply walkable_cons in Hwalk as [Hkey Hrest].
  cbn [plug replacedAt]. eexists. split.
  - by apply recordUpdate_inUpdates.
  - rewrite nestedDiff_fetched. by eapply IH.
Qed.

Lemma node_ext (r r' : ValueDiff) :
  Old r = Old r' → New r = New r' →
  (is_Some (Array r) ↔ is_Some (Array r')) →
  (is_Some (Object r) ↔ is_Some (Object r')) →
  (∀ k, addsAt r k = addsAt r' k) →
  (∀ k, deletesAt r k = deletesAt r' k) →
  (∀ k, samesAt r k = samesAt r' k) →
  (∀ k, updatesAt r k = updatesAt r' k) →
  r = r'.
Proof.
  destruct r as [o n a b], r' as [o' n' a' b']. cbn [Old New Array Object].
  intros -> -> Ha Hb Hadds Hdeletes Hsames Hupdates.
  assert (a = a') as ->.
  { destruct a as [[a1 a2 a3 a4]|], a' as [[a1' a2' a3' a4']|].
    - f_equal. f_equal; apply map_eq; intros i.
      + exact (Hadds (EInt i)).
      + exact (Hdeletes (EInt i)).
      + exact (Hsames (EInt i)).
      + exact (Hupdates (EInt i)).
    - destruct (proj1 Ha) as [? [=]]. by eexists.
    - destruct (proj2 Ha) as [? [=]]. by eexists.
    - reflexivity. }
  assert (b = b') as ->.
  { destruct b as [[b1 b2 b3 b4]|], b' as [[b1' b2' b3' b4']|].
    - f_equal. f_equal; apply map_eq; intros s.
      + exact (Hadds (EStr s)).
      + exact (Hdeletes (EStr s)).
      + exact (Hsames (EStr s)).
      + exact (Hupdates (EStr s)).
    - destruct (proj1 Hb) as [? [=]]. by eexists.
    - destruct (proj2 Hb) as [? [=]]. by eexists.
    - reflexivity. }
  reflexivity.
Qed.

Lemma sameElsewhere_allocated (element : PathElement) (parent r r' : ValueDiff) :
  sameElsewhere element parent r → sameElsewhere element parent r' →
  (is_Some (Array r) ↔ is_Some (Array r')) ∧ (is_Some (Object r) ↔ is_Some (Object r')).
Proof.
  intros (_ & _ & Hr & _) (_ & _ & Hr' & _).
  destruct element as [i|e|]; cbn in Hr, Hr'; [| |done];
    destruct Hr as [Hr1 Hr2], Hr' as [Hr1' Hr2']; rewrite Hr2, Hr2'; tauto.
Qed.

(** The three relations pin the result down: a node is what its reads
    are. *)
Lemma inAdds_unique (element : PathElement) (v : PropertyValue) (parent r r' : ValueDiff) :
  inAdds element v parent r → inAdds element v parent r' → r = r'.
Proof.
  intros [Hs (Ha & Hd & Hu)] [Hs' (Ha' & Hd' & Hu')].
  destruct (sameElsewhere_allocated _ _ _ _ Hs Hs') as [Harr Hobj].
  destruct Hs as (Ho & Hn & _ & Hsames & Hrest), Hs' as (Ho' & Hn' & _ & Hsames' & Hrest').
  apply node_ext; [congruence | congruence | exact Harr | exact Hobj | ..]; intros k.
  - destruct (decide (k = element)) as [->|Hk]; [congruence|].
    destruct (Hrest k Hk) as (-> & _), (Hrest' k Hk) as (-> & _). reflexivity.
  - destruct (decide (k = element)) as [->|Hk]; [congruence|].
    destruct (Hrest k Hk) as (_ & -> & _), (Hrest' k Hk) as (_ & -> & _). reflexivity.
  - by rewrite Hsames, Hsames'.
  - destruct (decide (k = element)) as [->|Hk]; [congruence|].
    destruct (Hrest k Hk) as (_ & _ & ->), (Hrest' k Hk) as (_ & _ & ->). reflexivity.
Qed.

Lemma inDeletes_unique (element : PathElement) (v : PropertyValue)
    (parent r r' : ValueDiff) :
  inDeletes element v parent r → inDeletes element v parent r' → r = r'.
Proof.
  intros [Hs (Hd & Ha & Hu)] [Hs' (Hd' & Ha' & Hu')].
  destruct (sameElsewhere_allocated _ _ _ _ Hs Hs') as [Harr Hobj].
  destruct Hs as (Ho & Hn & _ & Hsames & Hrest), Hs' as (Ho' & Hn' & _ & Hsames' & Hrest').
  apply node_ext; [congruence | congruence | exact Harr | exact Hobj | ..]; intros k.
  - destruct (decide (k = element)) as [->|Hk]; [congruence|].
    destruct (Hrest k Hk) as (-> & _), (Hrest' k Hk) as (-> & _). reflexivity.
  - destruct (decide (k = element)) as [->|Hk]; [congruence|].
    destruct (Hrest k Hk) as (_ & -> & _), (Hrest' k Hk) as (_ & -> & _). reflexivity.
  - by rewrite Hsames, Hsames'.
  - destruct (decide (k = element)) as [->|Hk]; [congruence|].
    destruct (Hrest k Hk) as (_ & _ & ->), (Hrest' k Hk) as (_ & _ & ->). reflexivity.
Qed.

Lemma inUpdates_unique (element : PathElement) (d : ValueDiff) (parent r r' : ValueDiff) :
  inUpdates element d parent r → inUpdates element d parent r' → r = r'.
Proof.
  intros [Hs (Hu & Ha & Hd)] [Hs' (Hu' & Ha' & Hd')].
  destruct (sameElsewhere_allocated _ _ _ _ Hs Hs') as [Harr Hobj].
  destruct Hs as (Ho & Hn & _ & Hsames & Hrest), Hs' as (Ho' & Hn' & _ & Hsames' & Hrest').
  apply node_ext; [congruence | congruence | exact Harr | exact Hobj | ..]; intros k.
  - destruct (decide (k = element)) as [->|Hk]; [congruence|].
    destruct (Hrest k Hk) as (-> & _), (Hrest' k Hk) as (-> & _). reflexivity.
  - destruct (decide (k = element)) as [->|Hk]; [congruence|].
    destruct (Hrest k Hk) as (_ & -> & _), (Hrest' k Hk) as (_ & -> & _). reflexivity.
  - by rewrite Hsames, Hsames'.
  - destruct (decide (k = element)) as [->|Hk]; [congruence|].
    destruct (Hrest k Hk) as (_ & _ & ->), (Hrest' k Hk) as (_ & _ & ->). reflexivity.
Qed.

Lemma replacedAt_unique (prefix : list PathElement) :
  ∀ parent r r' inner,
    replacedAt prefix parent r inner → replacedAt prefix parent r' inner → r = r'.
Proof.
  induction prefix as [|element prefix IH]; intros parent r r' inner; cbn [replacedAt].
  - congruence.
  - intros (d & Hd & Hrest) (d' & Hd' & Hrest').
    rewrite (IH _ _ _ _ Hrest Hrest') in Hd. by eapply inUpdates_unique.
Qed.

(** ** Leaf records *)

(** One call on a path of two or more elements, the nested call left
    folded. *)
Lemma addDiff_step (element next : PathElement) (rest : list PathElement)
    (kind : DiffKind) (parent : ValueDiff) (oldParent newParent : PropertyValue) :
  addDiff (element :: next :: rest) kind parent oldParent newParent =
    let old := getProperty element oldParent in
    let new := getProperty element newParent in
    match element with
    | EOther => Fault UnexpectedElementType
    | _ =>
        if IsNull old && negb (IsNull new) then Done (recordAdd element parent new)
        else if negb (IsNull old) && IsNull new then Done (recordDelete element parent old)
        else do ed <- addDiff (next :: rest) kind (nestedDiff element parent) old new;
             Done (recordUpdate element parent ed)
    end.
Proof. destruct element; reflexivity. Qed.

Lemma addDiff_baseKind (path : list PathElement) :
  ∀ kind parent oldParent newParent,
    addDiff path kind parent oldParent newParent =
    addDiff path (baseKind kind) parent oldParent newParent.
Proof.
  induction path as [|element rest IH]; intros kind parent oldParent newParent.
  - reflexivity.
  - destruct rest as [|next rest'].
    + destruct element, kind; reflexivity.
    + rewrite !addDiff_step. cbv zeta. rewrite (IH kind). reflexivity.
Qed.

(** One call on a path of one element. *)
Lemma addDiff_single (element : PathElement) (kind : DiffKind) (parent : ValueDiff)
    (oldParent newParent : PropertyValue) :
  element ≠ EOther →
  addDiff [element] kind parent oldParent newParent =
    match kind with
    | DiffAdd | DiffAddReplace =>
        Done (recordAdd element parent (getProperty element newParent))
    | DiffDelete | DiffDeleteReplace =>
        Done (recordDelete element parent (getProperty element oldParent))
    | DiffUpdate | DiffUpdateReplace =>
        Done (recordUpdate element parent
                (mkValueDiff (getProperty element oldParent)
                             (getProperty element newParent) None None))
    | DiffKindOther _ => Fault UnexpectedDiffKind
    end.
Proof. intros Hkey. destruct element; [| |done]; destruct kind; reflexivity. Qed.

(** C2.  On a path of one element, an integer or a string, the record's
    kind alone decides what the call writes under that element: Add and
    AddReplace the new looked-up value in Adds, Delete and DeleteReplace
    the old looked-up value in Deletes, Update and UpdateReplace the pair
    of both in Updates; the entry reads back from the result and every
    other entry of the node reads as before.  Any other kind panics.  On
    every path a replace kind builds what its base kind builds. *)
Theorem addDiff_leaf (element : PathElement) (kind : DiffKind) (parent : ValueDiff)
    (oldParent newParent : PropertyValue) :
  element ≠ EOther →
  let old := getProperty element oldParent in
  let new := getProperty element newParent in
  let result := addDiff [element] kind parent oldParent newParent in
  match kind with
  | DiffAdd | DiffAddReplace =>
      ∃ r, result = Done r ∧ inAdds element new parent r
  | DiffDelete | DiffDeleteReplace =>
      ∃ r, result = Done r ∧ inDeletes element old parent r
  | DiffUpdate | DiffUpdateReplace =>
      ∃ r, result = Done r ∧
           inUpdates element (mkValueDiff old new None None) parent r
  | DiffKindOther _ => result = Fault UnexpectedDiffKind
  end
  ∧ ∀ path, addDiff path kind parent oldParent newParent =
            addDiff path (baseKind kind) parent oldParent newParent.
Proof.
  intros Hkey old new result. subst result old new. split.
  - rewrite addDiff_single by done.
    destruct kind; [eexists; split; [reflexivity|]..|reflexivity].
    + by apply recordAdd_inAdds.
    + by apply recordAdd_inAdds.
    + by apply recordDelete_inDeletes.
    + by apply recordDelete_inDeletes.
    + by apply recordUpdate_inUpdates.
    + by apply recordUpdate_inUpdates.
  - intros path. apply addDiff_baseKind.
Qed.

Lemma addDiff_leaf_witness :
  ∃ r, addDiff [EStr "x"] DiffUpdateReplace zeroValueDiff
         (PVObject {["x" := PVNumber 1]}) (PVObject {["x" := PVNumber 2]}) = Done r ∧
       inUpdates (EStr "x") (mkValueDiff (PVNumber 1) (PVNumber 2) None None)
         zeroValueDiff r.
Proof.
  refine (proj1 (addDiff_leaf (EStr "x") DiffUpdateReplace zeroValueDiff
                   (PVObject {["x" := PVNumber 1]}) (PVObject {["x" := PVNumber 2]}) _)).
  discriminate.
Defined.

(** ** Records below the first element *)

(** One call on a path of two or more elements whose first element is an
    integer or a string. *)
Lemma addDiff_nonleaf (element next : PathElement) (rest : list PathElement)
    (kind : DiffKind) (parent : ValueDiff) (oldParent newParent : PropertyValue) :
  element ≠ EOther →
  let old := getProperty element oldParent in
  let new := getProperty element newParent in
  let result := addDiff (element :: next :: rest) kind parent oldParent newParent in
  (IsNull old = true → IsNull new = false →
     result = Done (recordAdd element parent new)) ∧
  (IsNull old = false → IsNull new = true →
     result = Done (recordDelete element parent old)) ∧
  (IsNull old = IsNull new →
     result = do ed <- addDiff (next :: rest) kind (nestedDiff element parent) old new;
              Done (recordUpdate element parent ed)).
Proof.
  intros Hkey old new result. subst result.
  rewrite addDiff_step. cbv zeta. fold old new.
  destruct element as [i|e|]; [| |done];
    (split; [intros -> ->; reflexivity|]);
    (split; [intros -> ->; reflexivity|]);
    intros ->; by rewrite andb_negb_r, andb_negb_l.
Qed.

Lemma exec_bind_Done {A} (m : exec A) : (do x <- m; Done x) = m.
Proof. by destruct m. Qed.

Lemma exec_bind_assoc {A B C} (m : exec A) (f : A → exec B) (g : B → exec C) :
  (do y <- (do x <- m; f x); g y) = (do x <- m; do y <- f x; g y).
Proof. by destruct m. Qed.

(** Through a walkable prefix the call reaches the node at the prefix
    with the rest of the path and the values found there. *)
Lemma addDiff_descend (prefix : list PathElement) :
  ∀ tail kind parent oldParent newParent,
    tail ≠ [] → walkable prefix oldParent newParent = true →
    addDiff (prefix ++ tail) kind parent oldParent newParent =
      do inner <- addDiff tail kind (nodeAt prefix parent)
                    (descend prefix oldParent) (descend prefix newParent);
      Done (plug prefix parent inner).
Proof.
  induction prefix as [|element prefix IH];
    intros tail kind parent oldParent newParent Htail Hwalk.
  - cbn [app nodeAt descend plug]. by rewrite exec_bind_Done.
  - cbn [walkable] in Hwalk.
    apply andb_true_iff in Hwalk as [Hwalk Hrest].
    apply andb_true_iff in Hwalk as [Hkey Heq].
    apply Bool.eqb_prop in Heq.
    destruct (prefix ++ tail)%list as [|next rest] eqn:Happ.
    { apply app_eq_nil in Happ as [_ ->]. done. }
    cbn [app]. rewrite Happ, addDiff_step. cbv zeta.
    rewrite <- Happ, (IH tail kind _ _ _ Htail Hrest), Heq.
    rewrite andb_negb_r, andb_negb_l.
    rewrite exec_bind_assoc. cbn [nodeAt descend plug exec_bind].
    destruct element; [reflexivity | reflexivity | discriminate].
Qed.

(** C1.  Take a path of two or more elements, or what is left of one
    after a prefix through which the call has descended, and let its
    first element be an integer or a string.  With the old side null and
    the new side not, the new value is written to Adds under that element;
    with the old side not null and the new side null, the old value is
    written to Deletes; in both cases the call succeeds whatever the kind
    and the rest of the path are, and nothing else changes in the node.
    Otherwise, which includes both sides present, the nested diff is read
    from Updates under that element, the call is repeated on it with the
    rest of the path and the two looked-up values, and its outcome is
    written back to Updates under that element, a panic of the nested call
    being the panic of the whole.  The empty prefix is the first level; a
    longer one is a deeper level, where the node is the one reached along
    the prefix and the result is the accumulator with that node replaced. *)
Theorem addDiff_presence_rule (prefix : list PathElement) (element next : PathElement)
    (rest : list PathElement) (kind : DiffKind) (parent : ValueDiff)
    (oldParent newParent : PropertyValue) :
  walkable prefix oldParent newParent = true →
  element ≠ EOther →
  let node := reached prefix parent in
  let old := getProperty element (descend prefix oldParent) in
  let new := getProperty element (descend prefix newParent) in
  let result :=
    addDiff (prefix ++ element :: next :: rest) kind parent oldParent newParent in
  let recursed :=
    match addDiff (next :: rest) kind (fetched element node) old new with
    | Done ed =>
        ∃ r inner, result = Done r ∧ replacedAt prefix parent r inner ∧
                   inUpdates element ed node inner
    | Fault p => result = Fault p
    end in
  (IsNull old = true → IsNull new = false →
     ∃ r inner, result = Done r ∧ replacedAt prefix parent r inner ∧
                inAdds element new node inner) ∧
  (IsNull old = false → IsNull new = true →
     ∃ r inner, result = Done r ∧ replacedAt prefix parent r inner ∧
                inDeletes element old node inner) ∧
  (IsNull old = false → IsNull new = false → recursed) ∧
  (IsNull old = true → IsNull new = true → recursed).
Proof.
  intros Hwalk Hkey node old new result recursed.
  subst recursed result node old new.
  rewrite (addDiff_descend prefix (element :: next :: rest)) by done.
  rewrite <- nodeAt_reached.
  destruct (addDiff_nonleaf element next rest kind (nodeAt prefix parent)
              (descend prefix oldParent) (descend prefix newParent) Hkey)
    as (Hadd & Hdel & Hrec).
  assert (∀ inner, replacedAt prefix parent (plug prefix parent inner) inner) as Hplug.
  { intros inner. by eapply plug_replacedAt. }
  rewrite <- nestedDiff_fetched.
  split; [intros Ho Hn; rewrite (Hadd Ho Hn); do 2 eexists;
          split; [reflexivity|]; split; [apply Hplug|]; by apply recordAdd_inAdds|].
  split; [intros Ho Hn; rewrite (Hdel Ho Hn); do 2 eexists;
          split; [reflexivity|]; split; [apply Hplug|]; by apply recordDelete_inDeletes|].
  split; intros Ho Hn; (rewrite Hrec by congruence);
    (destruct (addDiff (next :: rest) _ _ _ _) as [ed|p]; [|reflexivity]);
    do 2 eexists; (split; [reflexivity|]); (split; [apply Hplug|]);
    by apply recordUpdate_inUpdates.
Qed.

(** At the second level, below [a], the key [b] that only the new side
    has is recorded as an addition although the record is a Delete. *)
Lemma addDiff_presence_rule_witness :
  ∃ r inner,
    addDiff ([EStr "a"] ++ [EStr "b"; EStr "c"]) DiffDelete zeroValueDiff
      (PVObject {["a" := PVObject {["x" := PVNumber 1]}]})
      (PVObject {["a" := PVObject {["b" := PVObject {["c" := PVNumber 2]}]}]}) = Done r ∧
    replacedAt [EStr "a"] zeroValueDiff r inner ∧
    inAdds (EStr "b") (PVObject {["c" := PVNumber 2]})
      (reached [EStr "a"] zeroValueDiff) inner.
Proof.
  refine (proj1 (addDiff_presence_rule [EStr "a"] (EStr "b") (EStr "c") [] DiffDelete
    zeroValueDiff
    (PVObject {["a" := PVObject {["x" := PVNumber 1]}]})
    (PVObject {["a" := PVObject {["b" := PVObject {["c" := PVNumber 2]}]}]}) _ _) _ _);
    [reflexivity | discriminate | reflexivity | reflexivity].
Defined.

(** For the path [a.b] of an Update, with [a] present on the old side
    only, the whole old value of [a] is recorded in Deletes. *)
Lemma addDiff_inferred_delete :
  addDiff [EStr "a"; EStr "b"] DiffUpdate zeroValueDiff
      (PVObject {["a" := PVObject {["b" := PVNumber 1]}]}) (PVObject ∅) =
    Done (recordDelete (EStr "a") zeroValueDiff (PVObject {["b" := PVNumber 1]})).
Proof. reflexivity. Qed.

(** ** The result of translating no records *)

(** C4, as amended.  With a record set that is present and empty, the
    translation returns the nil object diff of the untouched accumulator. *)
Theorem translateDetailedDiff_no_records
    (oldOutputs oldInputs newInputs : gmap string PropertyValue) :
  translateDetailedDiff (mkStep (Some []) oldOutputs oldInputs newInputs) = Done None.
Proof. reflexivity. Qed.

(** No allocated object diff, empty or not, is returned for the empty
    record set. *)
Lemma empty_records_not_allocated :
  translateDetailedDiff (mkStep (Some []) ∅ ∅ ∅) ≠ Done (Some newObjectDiff) ∧
  ¬ ∃ od, translateDetailedDiff (mkStep (Some []) ∅ ∅ ∅) = Done (Some od).
Proof. split; [discriminate | intros [od H]; discriminate]. Qed.

(** ** Opaque contents *)

Lemma IsNull_reseal f v : IsNull (reseal f v) = IsNull v.
Proof. by destruct v. Qed.

Lemma recordAdd_reseal f element parent v :
  recordAdd element (resealDiff f parent) (reseal f v) =
  resealDiff f (recordAdd element parent v).
Proof.
  destruct parent as [old new [a|] [o|]], element as [i|e|]; try reflexivity;
    cbn; rewrite ?fmap_insert, ?fmap_empty; reflexivity.
Qed.

Lemma recordDelete_reseal f element parent v :
  recordDelete element (resealDiff f parent) (reseal f v) =
  resealDiff f (recordDelete element parent v).
Proof.
  destruct parent as [old new [a|] [o|]], element as [i|e|]; try reflexivity;
    cbn; rewrite ?fmap_insert, ?fmap_empty; reflexivity.
Qed.

Lemma recordUpdate_reseal f element parent d :
  recordUpdate element (resealDiff f parent) (resealDiff f d) =
  resealDiff f (recordUpdate element parent d).
Proof.
  destruct parent as [old new [a|] [o|]], element as [i|e|]; try reflexivity;
    cbn; rewrite ?fmap_insert, ?fmap_empty; reflexivity.
Qed.

Lemma nestedDiff_reseal f element parent :
  nestedDiff element (resealDiff f parent) = resealDiff f (nestedDiff element parent).
Proof.
  destruct parent as [old new [a|] [o|]], element as [i|e|]; try reflexivity;
    cbn; unfold arrayUpdate, objectUpdate; cbn;
    rewrite ?lookup_fmap, ?lookup_empty; try reflexivity.
  all: try by destruct (ArrayDiff.Updates a !! i).
  all: try by destruct (ObjectDiff.Updates o !! e).
Qed.

(** [addDiff] commutes with every replacement of opaque contents: it
    never looks inside a computed, output or secret value. *)
Lemma addDiff_reseal f (path : list PathElement) :
  ∀ kind parent oldParent newParent,
    addDiff path kind (resealDiff f parent) (reseal f oldParent) (reseal f newParent) =
    resealExec f (addDiff path kind parent oldParent newParent).
Proof.
  induction path as [|element rest IH]; intros kind parent oldParent newParent.
  - reflexivity.
  - destruct rest as [|next rest'].
    + destruct (decide (element = EOther)) as [->|Hkey]; [reflexivity|].
      rewrite !addDiff_single by exact Hkey. rewrite !getProperty_reseal.
      destruct kind; cbn [resealExec];
        rewrite <- ?recordAdd_reseal, <- ?recordDelete_reseal, <- ?recordUpdate_reseal;
        reflexivity.
    + rewrite !addDiff_step. cbv zeta.
      destruct (decide (element = EOther)) as [->|Hkey]; [reflexivity|].
      rewrite !getProperty_reseal, !IsNull_reseal, nestedDiff_reseal, IH.
      destruct (IsNull (getProperty element oldParent) && _).
      { destruct element; [| |done]; cbn [resealExec]; by rewrite recordAdd_reseal. }
      destruct (negb (IsNull (getProperty element oldParent)) && _).
      { destruct element; [| |done]; cbn [resealExec]; by rewrite recordDelete_reseal. }
      destruct (addDiff (next :: rest') kind _ _ _) as [ed|p];
        destruct element; try done; cbn [resealExec exec_bind];
        by rewrite <- recordUpdate_reseal.
Qed.

(** ** Array diff or object diff *)

Section Shaped.

(** The paths of all the records of one translation. *)
Variable paths : list (list PathElement).

Lemma shaped_leaf pre old new : shaped paths pre (mkValueDiff old new None None).
Proof. constructor; simpl; intros; discriminate. Qed.

Lemma shaped_array pre d a i d' :
  shaped paths pre d → Array d = Some a → ArrayDiff.Updates a !! i = Some d' →
  shaped paths (pre ++ [EInt i]) d'.
Proof. intros H. inversion H; subst. eauto. Qed.

Lemma shaped_object pre d o e d' :
  shaped paths pre d → Object d = Some o → ObjectDiff.Updates o !! e = Some d' →
  shaped paths (pre ++ [EStr e]) d'.
Proof. intros H. inversion H; subst. eauto. Qed.

Lemma shaped_nestedDiff pre d element :
  shaped paths pre d → shaped paths (pre ++ [element]) (nestedDiff element d).
Proof.
  intros H. destruct element as [i|e|]; simpl; [| |apply shaped_leaf].
  - unfold arrayUpdate, ensureArray.
    destruct (Array d) as [a|] eqn:Ha; simpl.
    + destruct (ArrayDiff.Updates a !! i) as [d'|] eqn:Hd; simpl;
        [eapply shaped_array; eauto | apply shaped_leaf].
    + rewrite lookup_empty. apply shaped_leaf.
  - unfold objectUpdate, ensureObject.
    destruct (Object d) as [o|] eqn:Ho; simpl.
    + destruct (ObjectDiff.Updates o !! e) as [d'|] eqn:Hd; simpl;
        [eapply shaped_object; eauto | apply shaped_leaf].
    + rewrite lookup_empty. apply shaped_leaf.
Qed.

Lemma ensureArray_updates d i d' :
  ArrayDiff.Updates (ensureArray d) !! i = Some d' →
  ∃ a, Array d = Some a ∧ ArrayDiff.Updates a !! i = Some d'.
Proof.
  unfold ensureArray. destruct (Array d) as [a|]; simpl; [eauto|].
  by rewrite lookup_empty.
Qed.

Lemma ensureObject_updates d e d' :
  ObjectDiff.Updates (ensureObject d) !! e = Some d' →
  ∃ o, Object d = Some o ∧ ObjectDiff.Updates o !! e = Some d'.
Proof.
  unfold ensureObject. destruct (Object d) as [o|]; simpl; [eauto|].
  by rewrite lookup_empty.
Qed.

(** Recording an entry under an element that some path has at this
    position keeps the node shaped. *)
Lemma shaped_recordAdd pre d element rest v :
  shaped paths pre d → (pre ++ element :: rest)%list ∈ paths →
  shaped paths pre (recordAdd element d v).
Proof.
  intros H Hin. inversion H as [? ? Hi Hs Ha Ho]; subst.
  destruct element as [i|e|]; [| |exact H]; constructor; simpl.
  - intros _ _. by exists i, rest.
  - exact Hs.
  - intros a j d' [= <-] Hj. simpl in Hj.
    apply ensureArray_updates in Hj as (a & Hd & Hj). eauto.
  - exact Ho.
  - exact Hi.
  - intros _ _. by exists e, rest.
  - exact Ha.
  - intros o j d' [= <-] Hj. simpl in Hj.
    apply ensureObject_updates in Hj as (o & Hd & Hj). eauto.
Qed.

Lemma shaped_recordDelete pre d element rest v :
  shaped paths pre d → (pre ++ element :: rest)%list ∈ paths →
  shaped paths pre (recordDelete element d v).
Proof.
  intros H Hin. inversion H as [? ? Hi Hs Ha Ho]; subst.
  destruct element as [i|e|]; [| |exact H]; constructor; simpl.
  - intros _ _. by exists i, rest.
  - exact Hs.
  - intros a j d' [= <-] Hj. simpl in Hj.
    apply ensureArray_updates in Hj as (a & Hd & Hj). eauto.
  - exact Ho.
  - exact Hi.
  - intros _ _. by exists e, rest.
  - exact Ha.
  - intros o j d' [= <-] Hj. simpl in Hj.
    apply ensureObject_updates in Hj as (o & Hd & Hj). eauto.
Qed.

Lemma shaped_recordUpdate pre d element rest ed :
  shaped paths pre d → (pre ++ element :: rest)%list ∈ paths →
  shaped paths (pre ++ [element]) ed →
  shaped paths pre (recordUpdate element d ed).
Proof.
  intros H Hin Hed. inversion H as [? ? Hi Hs Ha Ho]; subst.
  destruct element as [i|e|]; [| |exact H]; constructor; simpl.
  - intros _ _. by exists i, rest.
  - exact Hs.
  - intros a j d' [= <-] Hj. simpl in Hj.
    apply lookup_insert_Some in Hj as [[<- <-]|[Hne Hj]]; [exact Hed|].
    apply ensureArray_updates in Hj as (a & Hd & Hj). eauto.
  - exact Ho.
  - exact Hi.
  - intros _ _. by exists e, rest.
  - exact Ha.
  - intros o j d' [= <-] Hj. simpl in Hj.
    apply lookup_insert_Some in Hj as [[<- <-]|[Hne Hj]]; [exact Hed|].
    apply ensureObject_updates in Hj as (o & Hd & Hj). eauto.
Qed.

(** One call of [addDiff] along a path of the translation keeps the
    accumulator shaped. *)
Lemma addDiff_shaped (path : list PathElement) :
  ∀ pre kind d oldParent newParent d',
    shaped paths pre d → (pre ++ path)%list ∈ paths →
    addDiff path kind d oldParent newParent = Done d' →
    shaped paths pre d'.
Proof.
  induction path as [|element rest IH];
    intros pre kind d oldParent newParent d' Hd Hin Hrun.
  - discriminate.
  - destruct rest as [|next rest'].
    + destruct element as [i|e|]; [| |discriminate];
        destruct kind; simpl in Hrun; try discriminate;
        injection Hrun as <-;
        first [ apply (shaped_recordAdd pre d (EInt i) [] _ Hd Hin)
              | apply (shaped_recordDelete pre d (EInt i) [] _ Hd Hin)
              | apply (shaped_recordUpdate pre d (EInt i) [] _ Hd Hin), shaped_leaf
              | apply (shaped_recordAdd pre d (EStr e) [] _ Hd Hin)
              | apply (shaped_recordDelete pre d (EStr e) [] _ Hd Hin)
              | apply (shaped_recordUpdate pre d (EStr e) [] _ Hd Hin), shaped_leaf ].
    + rewrite addDiff_step in Hrun. cbv zeta in Hrun.
      assert (Hcases :
        (if IsNull (getProperty element oldParent)
              && negb (IsNull (getProperty element newParent))
         then Done (recordAdd element d (getProperty element newParent))
         else if negb (IsNull (getProperty element oldParent))
                 && IsNull (getProperty element newParent)
         then Done (recordDelete element d (getProperty element oldParent))
         else do ed <- addDiff (next :: rest') kind (nestedDiff element d)
                         (getProperty element oldParent)
                         (getProperty element newParent);
              Done (recordUpdate element d ed)) = Done d').
      { destruct element; [exact Hrun | exact Hrun | discriminate]. }
      clear Hrun.
      destruct (IsNull (getProperty element oldParent)
                && negb (IsNull (getProperty element newParent))).
      { injection Hcases as <-. eapply shaped_recordAdd; eauto. }
      destruct (negb (IsNull (getProperty element oldParent))
                && IsNull (getProperty element newParent)).
      { injection Hcases as <-. eapply shaped_recordDelete; eauto. }
      destruct (addDiff (next :: rest') kind (nestedDiff element d)
                  (getProperty element oldParent) (getProperty element newParent))
        as [ed|] eqn:Hed; [|discriminate].
      simpl in Hcases. injection Hcases as <-.
      eapply shaped_recordUpdate; [exact Hd | exact Hin |].
      eapply IH; [apply shaped_nestedDiff, Hd | | exact Hed].
      by rewrite <- app_assoc.
Qed.

(** The loop of the translation keeps the accumulator shaped. *)
Lemma applyRecords_shaped (step : StepEventMetadata)
    (records : list (string * PropertyDiff)) :
  ∀ d d',
    (∀ record elements, record ∈ records →
       parseDiffPath record.1 = ParseOk elements → elements ∈ paths) →
    shaped paths [] d →
    applyRecords step records d = Done d' →
    shaped paths [] d'.
Proof.
  induction records as [|[path pdiff] records IH]; intros d d' Hpaths Hd Hrun.
  - simpl in Hrun. by injection Hrun as <-.
  - simpl in Hrun.
    destruct (parseDiffPath path) as [elements| | |] eqn:Hparse; try discriminate.
    destruct (addDiff elements _ d _ _) as [d1|] eqn:Hadd; [|discriminate].
    simpl in Hrun.
    eapply IH; [| |exact Hrun].
    + intros record els Hin. apply Hpaths. by right.
    + eapply (addDiff_shaped elements []); [exact Hd | | exact Hadd].
      simpl. apply (Hpaths (path, pdiff)); [by left | exact Hparse].
Qed.

(** Paths that split after a common prefix into an integer and a string
    are not consistent. *)
Lemma consistent_split pre i rest e rest' :
  consistent (pre ++ EInt i :: rest) (pre ++ EStr e :: rest') = false.
Proof.
  induction pre as [|x pre IH]; simpl; [reflexivity|].
  destruct (decide (x = x)); [|done].
  rewrite IH. apply andb_false_r.
Qed.

Hypothesis paths_consistent :
  ∀ p q, p ∈ paths → q ∈ paths → consistent p q = true.

Lemma shaped_exclusive pre d : shaped paths pre d → exclusive d.
Proof.
  induction 1 as [pre d Hi Hs _ IHa _ IHo].
  constructor; [|eauto|eauto].
  destruct (Array d) as [a|]; [|by left].
  destruct (Object d) as [o|]; [|by right].
  destruct (Hi a eq_refl) as (i & rest & Hp).
  destruct (Hs o eq_refl) as (e & rest' & Hq).
  pose proof (paths_consistent _ _ Hp Hq) as Hc.
  by rewrite consistent_split in Hc.
Qed.

End Shaped.

Lemma exclusive_inv (d : ValueDiff) :
  exclusive d →
  (Array d = None ∨ Object d = None) ∧
  (∀ a i d', Array d = Some a → ArrayDiff.Updates a !! i = Some d' → exclusive d') ∧
  (∀ o e d', Object d = Some o → ObjectDiff.Updates o !! e = Some d' → exclusive d').
Proof. destruct 1; auto. Qed.

Lemma parsedPaths_elem (records : list (string * PropertyDiff)) record elements :
  record ∈ records → parseDiffPath record.1 = ParseOk elements →
  elements ∈ parsedPaths records.
Proof.
  intros Hin Hparse. unfold parsedPaths.
  apply list_elem_of_In, in_flat_map. exists record.
  split; [by apply list_elem_of_In|]. rewrite Hparse. by left.
Qed.

Lemma records_consistent_spec (records : list (string * PropertyDiff)) p q :
  records_consistent records = true →
  p ∈ parsedPaths records → q ∈ parsedPaths records → consistent p q = true.
Proof.
  unfold records_consistent. intros H Hp Hq.
  rewrite forallb_forall in H. apply list_elem_of_In in Hp, Hq.
  specialize (H p Hp). rewrite forallb_forall in H. by apply H.
Qed.

(** C3, as amended.  When the paths of the records agree on the type,
    integer or string, of the element that follows every prefix they
    share, folding the records into a fresh accumulator leaves at most one
    of the array diff and the object diff populated on every node. *)
Theorem applyRecords_exclusive (step : StepEventMetadata)
    (records : list (string * PropertyDiff)) (d : ValueDiff) :
  records_consistent records = true →
  applyRecords step records zeroValueDiff = Done d →
  exclusive d.
Proof.
  intros Hcons Hrun.
  apply (shaped_exclusive (parsedPaths records)) with (pre := []).
  - intros p q. by apply records_consistent_spec.
  - eapply applyRecords_shaped; [|apply shaped_leaf|exact Hrun].
    intros record elements. apply parsedPaths_elem.
Qed.

Lemma applyRecords_exclusive_witness :
  ∃ d, applyRecords plainStep plainRecords zeroValueDiff = Done d ∧ exclusive d.
Proof.
  eexists. split; [vm_compute; reflexivity|].
  eapply (applyRecords_exclusive plainStep plainRecords);
    [vm_compute; reflexivity | vm_compute; reflexivity].
Defined.

(** The two records of [mixedRecords] populate both diffs on the node at
    [a], which is part of the translation's result. *)
Lemma mixed_sorts_populate_both :
  ∃ root od node,
    applyRecords mixedStep mixedRecords zeroValueDiff = Done root ∧
    translateDetailedDiff mixedStep = Done (Some od) ∧
    Object root = Some od ∧
    ObjectDiff.Updates od !! "a" = Some node ∧
    is_Some (Array node) ∧ is_Some (Object node) ∧
    ¬ exclusive root.
Proof.
  do 3 eexists.
  split; [vm_compute; reflexivity|].
  split; [vm_compute; reflexivity|].
  split; [reflexivity|].
  split; [vm_compute; reflexivity|].
  split; [by eexists|]. split; [by eexists|].
  intros Hroot. apply exclusive_inv in Hroot as (_ & _ & Hobj).
  specialize (Hobj _ "a" _ eq_refl eq_refl).
  apply exclusive_inv in Hobj as ([Hnone|Hnone] & _); discriminate.
Qed.

(** * Further properties *)

(** ** Parsing composes *)

Lemma parseLoop_fuel_irrelevant (fuel1 : nat) :
  ∀ fuel2 path elements,
    (String.length path <= fuel1)%nat → (String.length path <= fuel2)%nat →
    parseLoop fuel1 path elements = parseLoop fuel2 path elements.
Proof.
  induction fuel1 as [|fuel1 IH]; intros fuel2 path elements H1 H2.
  - destruct path; [by destruct fuel2 | cbn in H1; lia].
  - destruct path as [|c0 rest]; [by destruct fuel2|].
    destruct fuel2 as [|fuel2]; [cbn in H2; lia|].
    rewrite !parseLoop_step. cbn [String.length] in H1, H2.
    destruct (Ascii.eqb c0 dot) eqn:Hdot.
    { apply IH; lia. }
    destruct (Ascii.eqb c0 lbracket) eqn:Hlb.
    + destruct rest as [|c1 rest1]; [reflexivity|].
      destruct (Ascii.eqb c1 dquote).
      * destruct (scanQuoted rest1 EmptyString) as [[key after]|] eqn:Hq; [|reflexivity].
        apply scanQuoted_shorter in Hq.
        destruct after as [|c2 after']; [reflexivity|].
        destruct (Ascii.eqb c2 rbracket_char); [|reflexivity].
        cbn [String.length] in *. apply IH; lia.
      * destruct (IndexRune (String c0 (String c1 rest1)) rbracket_char)
          as [r|] eqn:Hr; [|reflexivity].
        destruct (ParseInt _); [|reflexivity].
        pose proof (string_drop_length (S r) (String c0 (String c1 rest1))) as Hd.
        cbn [String.length] in *. apply IH; lia.
    + destruct (scanName (String c0 rest)) as [name tail] eqn:Hn.
      apply (scanName_nonempty _ _ _ _ Hdot Hlb) in Hn as [_ Hn].
      apply IH; lia.
Qed.

Lemma prependElements_app a b r :
  prependElements a (prependElements b r) = prependElements (a ++ b)%list r.
Proof. destruct r; cbn; [by rewrite app_assoc | done..]. Qed.

Lemma parseLoop_acc (fuel : nat) :
  ∀ path elements,
    parseLoop fuel path elements = prependElements elements (parseLoop fuel path []).
Proof.
  induction fuel as [|fuel IH]; intros path elements.
  - destruct path; cbn; [by rewrite app_nil_r | done].
  - destruct path as [|c0 rest]; [cbn; by rewrite app_nil_r|].
    rewrite !parseLoop_step.
    destruct (Ascii.eqb c0 dot); [apply IH|].
    assert (Hgrow : ∀ path' x,
              parseLoop fuel path' (elements ++ [x]) =
              prependElements elements (parseLoop fuel path' ([] ++ [x]))).
    { intros path' x. rewrite (IH path' (elements ++ [x])%list), (IH path' ([] ++ [x])%list).
      by rewrite prependElements_app. }
    destruct (Ascii.eqb c0 lbracket).
    + destruct rest as [|c1 rest1]; [reflexivity|].
      destruct (Ascii.eqb c1 dquote).
      * destruct (scanQuoted rest1 EmptyString) as [[key after]|]; [|reflexivity].
        destruct after as [|c2 after']; [reflexivity|].
        destruct (Ascii.eqb c2 rbracket_char); [|reflexivity].
        apply Hgrow.
      * destruct (IndexRune _ _); [|reflexivity].
        destruct (ParseInt _); [|reflexivity]. apply Hgrow.
    + destruct (scanName _) as [name tail]. apply Hgrow.
Qed.

Lemma at_boundary_app (s s2 : string) :
  at_boundary s = true → at_boundary s2 = true → at_boundary (s ++ s2) = true.
Proof. destruct s; [done | by rewrite string_app_cons]. Qed.

(** Parsing an accepted string followed by a tail that starts at an
    element boundary continues with the tail. *)
Lemma conforms_parseLoop_app (s1 : string) :
  conforms s1 →
  ∀ s2 fuel elements,
    at_boundary s2 = true →
    (String.length (s1 ++ s2) <= fuel)%nat →
    ∃ e1, parseLoop (String.length s1) s1 [] = ParseOk e1 ∧
          parseLoop fuel (s1 ++ s2) elements =
          parseLoop (String.length s2) s2 (elements ++ e1)%list.
Proof.
  induction 1 as [|s _ IH|key s Hkey _ IH|digits index s Hint _ IH|name s Hne Hname Hs _ IH];
    intros s2 fuel elements Hs2 Hfuel.
  - exists []. split; [reflexivity|]. rewrite app_nil_r.
    change (EmptyString ++ s2) with s2 in *. apply parseLoop_fuel_irrelevant; lia.
  - rewrite string_app_cons in *. cbn [String.length] in *.
    destruct fuel as [|fuel]; [lia|].
    destruct (IH s2 fuel elements Hs2) as (e1 & He1 & Hrun); [lia|].
    exists e1. rewrite !parseLoop_step.
    replace (Ascii.eqb dot dot) with true by reflexivity. done.
  - rewrite string_app_assoc in *. rewrite string_length_app in Hfuel.
    pose proof (quotedAccessor_length key).
    destruct fuel as [|fuel]; [lia|].
    destruct (IH s2 fuel (elements ++ [EStr key])%list Hs2) as (e1 & He1 & Hrun); [lia|].
    exists (EStr key :: e1). split.
    + rewrite string_length_app.
      destruct (String.length (quotedAccessor key)) as [|n] eqn:Hn; [lia|].
      cbn [Nat.add]. rewrite parseLoop_key by done.
      rewrite parseLoop_acc, (parseLoop_fuel_irrelevant _ (String.length s)) by lia.
      by rewrite He1.
    + rewrite parseLoop_key, Hrun by done. by rewrite <- app_assoc.
  - rewrite string_app_cons, string_app_assoc, string_app_cons in *.
    cbn [String.length] in *. rewrite string_length_app in *. cbn [String.length] in *.
    destruct fuel as [|fuel]; [lia|].
    destruct (IH s2 fuel (elements ++ [EInt index])%list Hs2) as (e1 & He1 & Hrun); [lia|].
    exists (EInt index :: e1). split.
    + rewrite (parseLoop_index _ _ _ _ _ Hint).
      rewrite parseLoop_acc, (parseLoop_fuel_irrelevant _ (String.length s)) by lia.
      by rewrite He1.
    + rewrite (parseLoop_index _ _ _ _ _ Hint), Hrun. by rewrite <- app_assoc.
  - rewrite string_app_assoc in *. rewrite string_length_app in *.
    destruct name as [|c name]; [done|]. cbn [String.length] in *.
    destruct fuel as [|fuel]; [lia|].
    destruct (IH s2 fuel (elements ++ [EStr (String c name)])%list Hs2)
      as (e1 & He1 & Hrun); [lia|].
    exists (EStr (String c name) :: e1). split.
    + cbn [Nat.add]. rewrite parseLoop_name by done.
      rewrite parseLoop_acc, (parseLoop_fuel_irrelevant _ (String.length s)) by lia.
      by rewrite He1.
    + rewrite parseLoop_name, Hrun by (try apply at_boundary_app; done).
      by rewrite <- app_assoc.
Qed.

(** Parsing an accepted string followed by a tail that starts at an
    element boundary gives the elements of the string followed by the
    outcome of the tail. *)
Lemma parseDiffPath_concat (s1 s2 : string) (e1 : list PathElement) :
  parseDiffPath s1 = ParseOk e1 → at_boundary s2 = true →
  parseDiffPath (s1 ++ s2) = prependElements e1 (parseDiffPath s2).
Proof.
  intros Hok Hs2.
  assert (Hconf : conforms s1) by (eapply parseLoop_conforms, Hok).
  destruct (conforms_parseLoop_app s1 Hconf s2 (String.length (s1 ++ s2)) [] Hs2)
    as (e1' & He1 & Hrun); [lia|].
  unfold parseDiffPath in *. rewrite Hok in He1. injection He1 as <-.
  rewrite Hrun. apply parseLoop_acc.
Qed.

Lemma parseDiffPath_dot (s : string) : parseDiffPath (String dot s) = parseDiffPath s.
Proof.
  unfold parseDiffPath. cbn [String.length]. rewrite parseLoop_step.
  by replace (Ascii.eqb dot dot) with true by reflexivity.
Qed.

(** X2.  A ['.'] put between an accepted string and a tail that starts at
    an element boundary changes nothing: separators carry no meaning of
    their own, so [a.b], [a..b] and [.a.b] are the same path. *)
Theorem parseDiffPath_separator_ignored (s1 s2 : string) (e1 : list PathElement) :
  parseDiffPath s1 = ParseOk e1 → at_boundary s2 = true →
  parseDiffPath (s1 ++ String dot s2) = parseDiffPath (s1 ++ s2).
Proof.
  intros Hok Hs2.
  rewrite (parseDiffPath_concat s1 (String dot s2) e1 Hok) by reflexivity.
  rewrite (parseDiffPath_concat s1 s2 e1 Hok Hs2). by rewrite parseDiffPath_dot.
Qed.

Lemma parseLoop_panic_prefix (fuel : nat) :
  ∀ path elements,
    parseLoop fuel path elements = ParsePanic →
    ∃ p, path = p ++ "[" ∧ conforms p.
Proof.
  induction fuel as [|fuel IH]; intros path elements H.
  - destruct path; discriminate.
  - destruct path as [|c0 rest]; [discriminate|].
    rewrite parseLoop_step in H.
    destruct (Ascii.eqb c0 dot) eqn:Hdot.
    { apply Ascii.eqb_eq in Hdot as ->. apply IH in H as (p & -> & Hp).
      exists (String dot p). split; [reflexivity | by apply conforms_separator]. }
    destruct (Ascii.eqb c0 lbracket) eqn:Hlb.
    + apply Ascii.eqb_eq in Hlb as ->.
      destruct rest as [|c1 rest1].
      { exists EmptyString. split; [reflexivity | apply conforms_end]. }
      destruct (Ascii.eqb c1 dquote) eqn:Hq.
      * apply Ascii.eqb_eq in Hq as ->.
        destruct (scanQuoted rest1 EmptyString) as [[key after]|] eqn:Hscan; [|discriminate].
        destruct after as [|c2 after']; [discriminate|].
        destruct (Ascii.eqb c2 rbracket_char) eqn:Hr; [|discriminate].
        apply Ascii.eqb_eq in Hr as ->.
        apply scanQuoted_inv in Hscan as [-> Hend].
        apply IH in H as (p & -> & Hp).
        exists (quotedAccessor key ++ p). split; [|by apply conforms_key].
        unfold quotedAccessor.
        by rewrite !string_app_cons, !string_app_assoc, !string_app_cons.
      * destruct (IndexRune _ _) as [r|] eqn:Hidx; [|discriminate].
        destruct (ParseInt _) as [index|] eqn:Hint; [|discriminate].
        apply IndexRune_bracket in Hidx as (r' & -> & Hidx & Hsub & Hdrop).
        rewrite Hsub in Hint. rewrite Hdrop in H.
        apply IH in H as (p & Hp & Hconf).
        exists (String lbracket (String.substring 0 r' (String c1 rest1)
                                  ++ String rbracket_char p)).
        split; [|by apply (conforms_index _ index)].
        rewrite string_app_cons, string_app_assoc, string_app_cons, <- Hp.
        f_equal. apply (IndexRune_split _ _ _ Hidx).
    + destruct (scanName _) as [name tail] eqn:Hn.
      pose proof (scanName_split _ _ _ Hn) as ->.
      pose proof (scanName_nonempty _ _ _ _ Hdot Hlb Hn) as [Hne _].
      apply scanName_inv in Hn as [Hname Htail].
      apply IH in H as (p & -> & Hp).
      exists (name ++ p). split; [by rewrite string_app_assoc|].
      apply conforms_name; [done..| |done].
      destruct p; [done | exact Htail].
Qed.

(** X3.  The parser panics exactly on an accepted string followed by one
    more opening bracket at the end of the input. *)
Theorem parseDiffPath_panics_iff (path : string) :
  parseDiffPath path = ParsePanic ↔
  ∃ p elements, path = p ++ "[" ∧ parseDiffPath p = ParseOk elements.
Proof.
  split.
  - intros H. apply parseLoop_panic_prefix in H as (p & -> & Hp).
    destruct (conforms_parseLoop _ Hp (String.length p) []) as [extra Hex]; [lia|].
    by exists p, extra.
  - intros (p & elements & -> & Hok).
    by rewrite (parseDiffPath_concat p "[" elements Hok).
Qed.

Lemma digit_value_range c d : digit_value c = Some d → 0 <= d <= 9.
Proof.
  unfold digit_value.
  destruct ((48 <=? Z.of_nat (nat_of_ascii c)) && (Z.of_nat (nat_of_ascii c) <=? 57)) eqn:E;
    [|discriminate].
  intros [= <-]. apply andb_true_iff in E as [E1 E2]. lia.
Qed.

Lemma parse_digits_ge (s : string) : ∀ acc n,
  parse_digits s acc = Some n → 0 <= acc → acc <= n.
Proof.
  induction s as [|c s IH]; intros acc n H Hacc; cbn in H.
  - injection H as <-. lia.
  - destruct (digit_value c) as [d|] eqn:Hd; [|discriminate].
    apply digit_value_range in Hd. apply IH in H; lia.
Qed.

Lemma ParseInt_range (s : string) (n : Z) :
  ParseInt s = Some n → inIntRange n = true.
Proof.
  unfold ParseInt, inIntRange. destruct s as [|c r]; [discriminate|].
  change (2 ^ (intSize - 1)) with 9223372036854775808.
  destruct (Ascii.eqb c plus_char).
  { destruct r; [discriminate|].
    destruct (parse_digits _ 0) as [un|] eqn:Hd; [|discriminate].
    apply parse_digits_ge in Hd; [|lia].
    destruct (un <? 9223372036854775808) eqn:E; [|discriminate].
    intros [= <-]. lia. }
  destruct (Ascii.eqb c minus_char).
  { destruct r; [discriminate|].
    destruct (parse_digits _ 0) as [un|] eqn:Hd; [|discriminate].
    apply parse_digits_ge in Hd; [|lia].
    destruct (un <=? 9223372036854775808) eqn:E; [|discriminate].
    intros [= <-]. lia. }
  destruct (parse_digits _ 0) as [un|] eqn:Hd; [|discriminate].
  apply parse_digits_ge in Hd; [|lia].
  destruct (un <? 9223372036854775808) eqn:E; [|discriminate].
  intros [= <-]. lia.
Qed.

Lemma parseLoop_representable (fuel : nat) :
  ∀ path elements res,
    parseLoop fuel path elements = ParseOk res →
    forallb representable elements = true → forallb representable res = true.
Proof.
  induction fuel as [|fuel IH]; intros path elements res H Hels.
  - destruct path; [|discriminate]. by injection H as <-.
  - destruct path as [|c0 rest]; [by injection H as <-|].
    rewrite parseLoop_step in H.
    destruct (Ascii.eqb c0 dot) eqn:Hdot; [by eapply IH|].
    assert (Hgrow : ∀ path' x, representable x = true →
              parseLoop fuel path' (elements ++ [x]) = ParseOk res →
              forallb representable res = true).
    { intros path' x Hx Hrun. eapply IH; [exact Hrun|].
      rewrite forallb_app, Hels. cbn. by rewrite Hx. }
    destruct (Ascii.eqb c0 lbracket) eqn:Hlb.
    + destruct rest as [|c1 rest1]; [discriminate|].
      destruct (Ascii.eqb c1 dquote).
      * destruct (scanQuoted rest1 EmptyString) as [[key after]|] eqn:Hscan; [|discriminate].
        destruct after as [|c2 after']; [discriminate|].
        destruct (Ascii.eqb c2 rbracket_char); [|discriminate].
        apply scanQuoted_inv in Hscan as [_ Hend].
        eapply Hgrow; [|exact H]. cbn. by rewrite Hend, orb_true_r.
      * destruct (IndexRune _ _); [|discriminate].
        destruct (ParseInt _) as [index|] eqn:Hint; [|discriminate].
        eapply Hgrow; [|exact H]. cbn. by apply ParseInt_range in Hint.
    + destruct (scanName _) as [name tail] eqn:Hn.
      pose proof (scanName_nonempty _ _ _ _ Hdot Hlb Hn) as [Hne _].
      apply scanName_inv in Hn as [Hname _].
      eapply Hgrow; [|exact H]. cbn. unfold is_name.
      destruct name; [done|]. by rewrite Hname.
Qed.

(** X6.  Every element of a path the parser returns is an [int] within
    range or a string that is a bare name or does not end with a
    backslash; none is of another type. *)
Theorem parseDiffPath_elements_representable (path : string) (elements : list PathElement) :
  parseDiffPath path = ParseOk elements →
  forallb representable elements = true.
Proof. intros H. by eapply parseLoop_representable. Qed.

Lemma digit_value_digit_char d :
  0 <= d <= 9 → digit_value (digit_char d) = Some d.
Proof.
  intros Hd.
  assert (d = 0 ∨ d = 1 ∨ d = 2 ∨ d = 3 ∨ d = 4 ∨ d = 5 ∨ d = 6 ∨ d = 7 ∨ d = 8 ∨ d = 9)
    as Hcases by lia.
  intuition (subst; reflexivity).
Qed.

Lemma parse_digits_decimal_digits (fuel : nat) :
  ∀ n acc, 0 <= n < 2 ^ Z.of_nat fuel → (0 < fuel)%nat →
    ∃ k, 0 <= n < 10 ^ k ∧ 0 < k ∧
         ∀ a, parse_digits (decimal_digits fuel n acc) a =
              parse_digits acc (a * 10 ^ k + n).
Proof.
  induction fuel as [|fuel IH]; intros n acc Hn Hfuel; [lia|].
  cbn [decimal_digits].
  assert (Hmod : 0 <= n mod 10 <= 9) by (pose proof (Z.mod_pos_bound n 10); lia).
  destruct (n <? 10) eqn:Hsmall.
  - exists 1. split; [lia|]. split; [lia|]. intros a. cbn [parse_digits].
    rewrite digit_value_digit_char by exact Hmod.
    rewrite Z.mod_small by lia. f_equal; lia.
  - assert (Hdiv : 0 <= n / 10 < 2 ^ Z.of_nat fuel).
    { split; [apply Z.div_pos; lia|].
      apply Z.div_lt_upper_bound; [lia|].
      rewrite Nat2Z.inj_succ, Z.pow_succ_r in Hn by lia. lia. }
    assert (Hpos : (0 < fuel)%nat).
    { destruct fuel; [|lia]. cbn in Hdiv. assert (n / 10 = 0) by lia.
      apply Z.div_small_iff in H; lia. }
    destruct (IH (n / 10) (String (digit_char (n mod 10)) acc) Hdiv Hpos)
      as (k & Hk & Hkpos & Hparse).
    exists (k + 1). split.
    { rewrite Z.pow_add_r by lia. pose proof (Z.div_mod n 10). lia. }
    split; [lia|]. intros a. rewrite Hparse. cbn [parse_digits].
    rewrite digit_value_digit_char by exact Hmod. f_equal.
    rewrite Z.pow_add_r by lia. pose proof (Z.div_mod n 10). nia.
Qed.

Lemma decimal_digits_nonempty fuel n acc :
  (0 < fuel)%nat → decimal_digits fuel n acc ≠ EmptyString.
Proof.
  revert n acc. induction fuel as [|fuel IH]; intros n acc Hfuel; [lia|].
  cbn [decimal_digits]. destruct (n <? 10); [discriminate|].
  destruct fuel as [|fuel']; [discriminate|]. apply IH. lia.
Qed.

Lemma log2_fuel n : 0 <= n → 0 <= n < 2 ^ Z.of_nat (S (Z.to_nat (Z.log2 n))).
Proof.
  intros Hn. split; [exact Hn|].
  rewrite Nat2Z.inj_succ, Z2Nat.id by apply Z.log2_nonneg.
  destruct (Z.eq_dec n 0) as [->|Hne]; [reflexivity|].
  apply Z.log2_spec. lia.
Qed.

Lemma digit_value_not_sign c d :
  digit_value c = Some d →
  Ascii.eqb c plus_char = false ∧ Ascii.eqb c minus_char = false.
Proof.
  intros H. split.
  - destruct (Ascii.eqb c plus_char) eqn:E; [|done].
    apply Ascii.eqb_eq in E as ->. discriminate.
  - destruct (Ascii.eqb c minus_char) eqn:E; [|done].
    apply Ascii.eqb_eq in E as ->. discriminate.
Qed.

Lemma ParseInt_decimal (n : Z) :
  ParseInt (decimal n) = if inIntRange n then Some n else None.
Proof.
  unfold decimal, inIntRange. change (2 ^ (intSize - 1)) with 9223372036854775808.
  destruct (n <? 0) eqn:Hneg.
  - assert (Hn : 0 <= - n) by lia.
    destruct (parse_digits_decimal_digits _ (- n) EmptyString (log2_fuel _ Hn))
      as (k & _ & _ & Hparse); [lia|].
    pose proof (decimal_digits_nonempty (S (Z.to_nat (Z.log2 (- n)))) (- n) EmptyString)
      as Hne.
    unfold ParseInt.
    replace (Ascii.eqb minus_char plus_char) with false by reflexivity.
    replace (Ascii.eqb minus_char minus_char) with true by reflexivity.
    destruct (decimal_digits _ _ _) as [|c r] eqn:Hd;
      [exfalso; apply Hne; [lia | reflexivity]|].
    rewrite (Hparse 0). cbn [parse_digits].
    change (2 ^ (intSize - 1)) with 9223372036854775808.
    replace (0 * 10 ^ k + - n) with (- n) by lia.
    destruct (Z.leb_spec (- n) 9223372036854775808);
      destruct (Z.leb_spec (- (9223372036854775808)) n);
      destruct (Z.ltb_spec n 9223372036854775808); cbn [andb]; try lia;
      try reflexivity; f_equal; lia.
  - assert (Hn : 0 <= n) by lia.
    destruct (parse_digits_decimal_digits _ n EmptyString (log2_fuel _ Hn))
      as (k & _ & _ & Hparse); [lia|].
    pose proof (decimal_digits_nonempty (S (Z.to_nat (Z.log2 n))) n EmptyString) as Hne.
    destruct (decimal_digits _ _ _) as [|c r] eqn:Hd;
      [exfalso; apply Hne; [lia | reflexivity]|].
    specialize (Hparse 0). replace (0 * 10 ^ k + n) with n in Hparse by lia.
    change (parse_digits EmptyString n) with (Some n) in Hparse.
    unfold ParseInt.
    assert (Hc : ∃ d, digit_value c = Some d).
    { pose proof Hparse as Hp. cbn [parse_digits] in Hp.
      destruct (digit_value c); [eauto | discriminate]. }
    destruct Hc as [d Hc]. destruct (digit_value_not_sign _ _ Hc) as [-> ->].
    rewrite Hparse. change (2 ^ (intSize - 1)) with 9223372036854775808.
    destruct (Z.leb_spec (- (9223372036854775808)) n); [|lia]. cbn [andb].
    by destruct (n <? 9223372036854775808).
Qed.

Lemma int_byte_digit_char d : 0 <= d <= 9 → int_byte (digit_char d) = true.
Proof.
  intros Hd. unfold int_byte. rewrite bool_decide_eq_true_2; [by rewrite orb_true_r|].
  rewrite digit_value_digit_char by done. eauto.
Qed.

Lemma all_int_bytes_decimal_digits (fuel : nat) : ∀ n acc,
  all_int_bytes acc = true → all_int_bytes (decimal_digits fuel n acc) = true.
Proof.
  induction fuel as [|fuel IH]; intros n acc Hacc; [done|].
  cbn [decimal_digits].
  assert (Hmod : 0 <= n mod 10 <= 9) by (pose proof (Z.mod_pos_bound n 10); lia).
  assert (Hacc' : all_int_bytes (String (digit_char (n mod 10)) acc) = true).
  { cbn [all_int_bytes]. by rewrite int_byte_digit_char, Hacc. }
  destruct (n <? 10); [exact Hacc' | by apply IH].
Qed.

Lemma decimal_bytes (n : Z) : decimal n ≠ EmptyString ∧ all_int_bytes (decimal n) = true.
Proof.
  unfold decimal. destruct (n <? 0).
  - split; [discriminate|]. cbn [all_int_bytes].
    rewrite all_int_bytes_decimal_digits by done. reflexivity.
  - split; [apply decimal_digits_nonempty; lia|].
    by apply all_int_bytes_decimal_digits.
Qed.

(** One iteration over a bracketed text of sign and digit bytes that
    [ParseInt] rejects. *)
Lemma parseLoop_index_invalid fuel digits s elements :
  digits ≠ EmptyString → all_int_bytes digits = true → ParseInt digits = None →
  parseLoop (S fuel) (String lbracket (digits ++ String rbracket_char s)) elements =
    ParseErr InvalidArrayIndex.
Proof.
  intros Hnonempty Hbytes Hint.
  destruct digits as [|c1 digits]; [done|].
  rewrite string_app_cons, parseLoop_step.
  replace (Ascii.eqb lbracket dot) with false by reflexivity.
  replace (Ascii.eqb lbracket lbracket) with true by reflexivity.
  assert (Hc1 : Ascii.eqb c1 dquote = false).
  { apply int_byte_not_dquote. cbn in Hbytes. by apply andb_true_iff in Hbytes as []. }
  rewrite Hc1.
  pose proof (IndexRune_app rbracket_char (String lbracket (String c1 digits)) s) as Hidx.
  rewrite !string_app_cons in Hidx. rewrite Hidx; clear Hidx.
  2:{ cbn [no_byte]. replace (Ascii.eqb lbracket rbracket_char) with false by reflexivity.
      apply (all_int_bytes_no_rbracket _ Hbytes). }
  cbn [String.length].
  assert (Hsub : String.substring 1 (S (S (String.length digits)) - 1)
                   (String lbracket (String c1 (digits ++ String rbracket_char s)))
                 = String c1 digits).
  { cbn [Nat.sub String.substring]. by rewrite substring_app. }
  by rewrite Hsub, Hint.
Qed.

(** A bracketed decimal integer parses to that integer when it is an
    [int] and is an invalid array index otherwise. *)
Lemma parseDiffPath_decimal (n : Z) :
  parseDiffPath (String lbracket (decimal n ++ String rbracket_char EmptyString)) =
    if inIntRange n then ParseOk [EInt n] else ParseErr InvalidArrayIndex.
Proof.
  unfold parseDiffPath. cbn [String.length].
  pose proof (ParseInt_decimal n) as Hint. destruct (decimal_bytes n) as [Hne Hbytes].
  destruct (inIntRange n).
  - rewrite (parseLoop_index _ _ _ _ _ Hint). by destruct (String.length _).
  - by apply parseLoop_index_invalid.
Qed.

Lemma parseDiffPath_renderElement (element : PathElement) :
  representable element = true →
  parseDiffPath (renderElement element) = ParseOk [element].
Proof.
  destruct element as [i|key|]; cbn [representable renderElement]; intros Hrep; [| |done].
  - rewrite parseDiffPath_decimal. by rewrite Hrep.
  - destruct (is_name key) eqn:Hname.
    + rewrite parseDiffPath_dot. unfold parseDiffPath, is_name in *.
      destruct key as [|c key]; [done|].
      pose proof (parseLoop_name (String.length key) (String c key) EmptyString []) as Hp.
      rewrite string_app_empty_r in Hp. cbn [String.length].
      rewrite Hp by done. by destruct (String.length key).
    + cbn in Hrep. apply negb_true_iff in Hrep.
      unfold parseDiffPath.
      pose proof (quotedAccessor_length key) as Hlen.
      destruct (String.length (quotedAccessor key)) as [|n] eqn:Hn; [lia|].
      pose proof (parseLoop_key n key EmptyString [] Hrep) as Hp.
      rewrite string_app_empty_r in Hp. rewrite Hp. by destruct n.
Qed.

Lemma at_boundary_renderPath (elements : list PathElement) :
  forallb representable elements = true → at_boundary (renderPath elements) = true.
Proof.
  destruct elements as [|element rest]; [done|]. cbn [forallb renderPath].
  intros H. apply andb_true_iff in H as [H _].
  destruct element as [i|key|]; [done| |done].
  cbn [renderElement]. by destruct (is_name key).
Qed.

(** X8.  Spelling a path and parsing the spelling gives the path back,
    for every path of elements a path string can denote. *)
Theorem parseDiffPath_renderPath (elements : list PathElement) :
  forallb representable elements = true →
  parseDiffPath (renderPath elements) = ParseOk elements.
Proof.
  induction elements as [|element rest IH]; [done|].
  cbn [forallb renderPath]. intros H. apply andb_true_iff in H as [Hel Hrest].
  rewrite (parseDiffPath_concat _ _ [element]).
  - by rewrite (IH Hrest).
  - by apply parseDiffPath_renderElement.
  - by apply at_boundary_renderPath.
Qed.

Lemma addDiff_head (element : PathElement) (rest : list PathElement) (kind : DiffKind)
    (parent : ValueDiff) (oldParent newParent : PropertyValue) :
  element ≠ EOther →
  addDiff (element :: rest) kind parent oldParent newParent =
    do entry <- headEntry rest kind (nestedDiff element parent)
                  (getProperty element oldParent) (getProperty element newParent);
    Done (applyEntry element parent entry).
Proof.
  intros Hkey. destruct rest as [|next rest'].
  - rewrite addDiff_single by done. by destruct kind.
  - rewrite addDiff_step. cbv zeta. cbn [headEntry].
    destruct element; [| |done];
      (destruct (IsNull _ && negb _); [done|]);
      (destruct (negb _ && IsNull _); [done|]);
      by destruct (addDiff _ _ _ _ _).
Qed.

Lemma addDiff_other (rest : list PathElement) kind parent oldParent newParent :
  addDiff (EOther :: rest) kind parent oldParent newParent = Fault UnexpectedElementType.
Proof. by destruct rest. Qed.

Ltac diff_cases d :=
  destruct d as [? ? [[? ? ? ?]|] [[? ? ? ?]|]].

Lemma nestedDiff_applyEntry_other x y d e :
  x ≠ y → nestedDiff x (applyEntry y d e) = nestedDiff x d.
Proof.
  intros Hne. diff_cases d; destruct x as [i|s|], y as [j|t|], e; try done;
    cbn; unfold arrayUpdate, objectUpdate; cbn;
    rewrite ?lookup_insert_ne by congruence; reflexivity.
Qed.

Lemma nestedDiff_applyEntry_update x d ed :
  x ≠ EOther → nestedDiff x (applyEntry x d (EntryUpdate ed)) = ed.
Proof.
  intros Hkey. diff_cases d; destruct x as [i|s|]; try done;
    cbn; unfold arrayUpdate, objectUpdate; cbn; by rewrite lookup_insert_eq.
Qed.

Lemma nestedDiff_applyEntry_value x d e :
  (∀ ed, e ≠ EntryUpdate ed) → nestedDiff x (applyEntry x d e) = nestedDiff x d.
Proof.
  intros He. destruct e as [v|v|ed]; [| |by destruct (He ed)];
    diff_cases d; destruct x as [i|s|]; reflexivity.
Qed.

Lemma applyEntry_comm x y d ex ey :
  x ≠ y → applyEntry x (applyEntry y d ey) ex = applyEntry y (applyEntry x d ex) ey.
Proof.
  intros Hne. diff_cases d; destruct x as [i|s|], y as [j|t|], ex, ey; try done;
    cbn; unfold setArrayAdds, setArrayDeletes, setArrayUpdates,
           setObjectAdds, setObjectDeletes, setObjectUpdates; cbn;
    first [ reflexivity | rewrite insert_insert_ne by congruence; reflexivity ].
Qed.

Lemma applyEntry_idem x d e : applyEntry x (applyEntry x d e) e = applyEntry x d e.
Proof.
  diff_cases d; destruct x as [i|s|], e; try done;
    cbn; unfold setArrayAdds, setArrayDeletes, setArrayUpdates,
           setObjectAdds, setObjectDeletes, setObjectUpdates; cbn;
    first [ reflexivity | rewrite insert_insert_eq; reflexivity ].
Qed.

Lemma applyEntry_update_update x d a b :
  applyEntry x (applyEntry x d (EntryUpdate a)) (EntryUpdate b) =
  applyEntry x d (EntryUpdate b).
Proof.
  diff_cases d; destruct x as [i|s|]; try done;
    cbn; unfold setArrayUpdates, setObjectUpdates; cbn;
    first [ reflexivity | rewrite insert_insert_eq; reflexivity ].
Qed.

(** Whether a call panics, and how, does not depend on the accumulator. *)
Lemma addDiff_fault_independent (path : list PathElement) :
  ∀ kind d d' oldParent newParent p,
    addDiff path kind d oldParent newParent = Fault p →
    addDiff path kind d' oldParent newParent = Fault p.
Proof.
  induction path as [|element rest IH]; intros kind d d' oldParent newParent p H.
  - exact H.
  - destruct (decide (element = EOther)) as [->|Hkey].
    { by rewrite addDiff_other in *. }
    rewrite addDiff_head in * by done.
    destruct rest as [|next rest']; cbn [headEntry] in *.
    { by destruct kind. }
    destruct (IsNull _ && negb _); [done|].
    destruct (negb _ && IsNull _); [done|].
    destruct (addDiff (next :: rest') kind (nestedDiff element d) _ _) as [ed|p'] eqn:Hrec;
      [done|].
    cbn in H. injection H as <-.
    by rewrite (IH _ _ (nestedDiff element d') _ _ _ Hrec).
Qed.

Lemma addDiff_success_independent path kind d d' oldParent newParent r :
  addDiff path kind d oldParent newParent = Done r →
  ∃ r', addDiff path kind d' oldParent newParent = Done r'.
Proof.
  intros H. destruct (addDiff path kind d' oldParent newParent) as [r'|p] eqn:H'; [eauto|].
  apply (addDiff_fault_independent _ _ _ d) in H'. congruence.
Qed.

(** X11.  Applying a record a second time to the accumulator it produced
    changes nothing. *)
Theorem addDiff_idempotent (path : list PathElement) :
  ∀ kind d oldParent newParent r,
    addDiff path kind d oldParent newParent = Done r →
    addDiff path kind r oldParent newParent = Done r.
Proof.
  induction path as [|element rest IH]; intros kind d oldParent newParent r H.
  - discriminate.
  - destruct (decide (element = EOther)) as [->|Hkey].
    { by rewrite addDiff_other in H. }
    rewrite addDiff_head in * by done.
    destruct rest as [|next rest']; cbn [headEntry] in *.
    { destruct kind; cbn [exec_bind] in *; try discriminate; injection H as <-.
      all: first [ exact (f_equal Done (applyEntry_idem element d (EntryAdd _)))
                 | exact (f_equal Done (applyEntry_idem element d (EntryDelete _)))
                 | exact (f_equal Done (applyEntry_idem element d (EntryUpdate _))) ]. }
    destruct (IsNull _ && negb _).
    { injection H as <-. exact (f_equal Done (applyEntry_idem element d (EntryAdd _))). }
    destruct (negb _ && IsNull _).
    { injection H as <-. exact (f_equal Done (applyEntry_idem element d (EntryDelete _))). }
    destruct (addDiff (next :: rest') kind (nestedDiff element d) _ _) as [ed|p] eqn:Hrec;
      [|discriminate].
    injection H as <-.
    change (recordUpdate element d ed) with (applyEntry element d (EntryUpdate ed)).
    rewrite nestedDiff_applyEntry_update by done.
    rewrite (IH _ _ _ _ _ Hrec).
    exact (f_equal Done (applyEntry_idem element d (EntryUpdate ed))).
Qed.

Lemma diverge_nonempty p q : diverge p q = true → p ≠ [] ∧ q ≠ [].
Proof. by destruct p, q. Qed.

(** Two records whose paths part ways can be applied in either order. *)
Lemma addDiff_swap_eq (p : list PathElement) :
  ∀ q k1 k2 d oldParent newParent a b,
    diverge p q = true →
    addDiff p k1 d oldParent newParent = Done a →
    addDiff q k2 d oldParent newParent = Done b →
    addDiff q k2 a oldParent newParent = addDiff p k1 b oldParent newParent.
Proof.
  induction p as [|x p' IH]; intros q k1 k2 d oldParent newParent a b Hdiv Ha Hb.
  - discriminate.
  - destruct q as [|y q']; [discriminate|].
    destruct (decide (x = EOther)) as [->|Hx]; [by rewrite addDiff_other in Ha|].
    destruct (decide (y = EOther)) as [->|Hy]; [by rewrite addDiff_other in Hb|].
    cbn [diverge] in Hdiv.
    rewrite addDiff_head in Ha by done. rewrite addDiff_head in Hb by done.
    rewrite !addDiff_head by done.
    destruct (decide (x = y)) as [<-|Hne].
    + destruct (diverge_nonempty _ _ Hdiv) as [Hp' Hq'].
      destruct p' as [|x1 p'']; [done|]. destruct q' as [|y1 q'']; [done|].
      cbn [headEntry] in *.
      destruct (IsNull _ && negb _).
      { by injection Ha as <-; injection Hb as <-. }
      destruct (negb _ && IsNull _).
      { by injection Ha as <-; injection Hb as <-. }
      destruct (addDiff (x1 :: p'') k1 (nestedDiff x d) _ _) as [ea|] eqn:Hea; [|discriminate].
      destruct (addDiff (y1 :: q'') k2 (nestedDiff x d) _ _) as [eb|] eqn:Heb; [|discriminate].
      injection Ha as <-. injection Hb as <-.
      change (recordUpdate x d ea) with (applyEntry x d (EntryUpdate ea)).
      change (recordUpdate x d eb) with (applyEntry x d (EntryUpdate eb)).
      rewrite !nestedDiff_applyEntry_update by done.
      rewrite (IH _ _ _ _ _ _ _ _ Hdiv Hea Heb).
      destruct (addDiff (x1 :: p'') k1 eb _ _) as [er|]; [|done].
      cbn [exec_bind].
      change (recordUpdate x ?d ?e) with (applyEntry x d (EntryUpdate e)).
      by rewrite !applyEntry_update_update.
    + destruct (headEntry p' k1 (nestedDiff x d) _ _) as [ex|] eqn:Hex; [|discriminate].
      destruct (headEntry q' k2 (nestedDiff y d) _ _) as [ey|] eqn:Hey; [|discriminate].
      injection Ha as <-. injection Hb as <-.
      rewrite !nestedDiff_applyEntry_other by done.
      rewrite Hex, Hey. cbn [exec_bind]. by rewrite applyEntry_comm.
Qed.

Lemma diverge_sym p : ∀ q, diverge p q = diverge q p.
Proof.
  induction p as [|x p IH]; intros [|y q]; try reflexivity. cbn.
  destruct (decide (x = y)) as [->|Hne].
  - rewrite decide_True by done. apply IH.
  - by rewrite decide_False by congruence.
Qed.

Lemma independent_sym r1 r2 : independent r1 r2 = independent r2 r1.
Proof.
  unfold independent.
  destruct (parseDiffPath r1.1), (parseDiffPath r2.1); try reflexivity.
  rewrite diverge_sym. f_equal. by destruct (InputDiff r1.2), (InputDiff r2.2).
Qed.

Lemma applyRecord_success_independent step d d' record r :
  applyRecord step d record = Done r → ∃ r', applyRecord step d' record = Done r'.
Proof.
  destruct record as [path pdiff]. unfold applyRecord.
  destruct (parseDiffPath path); try discriminate.
  apply addDiff_success_independent.
Qed.

Lemma applyRecord_swap step d r1 r2 a b :
  independent r1 r2 = true →
  applyRecord step d r1 = Done a → applyRecord step d r2 = Done b →
  applyRecord step a r2 = applyRecord step b r1.
Proof.
  destruct r1 as [path1 pdiff1], r2 as [path2 pdiff2].
  unfold independent, applyRecord. cbn [fst snd].
  destruct (parseDiffPath path1) as [p| | |]; try discriminate.
  destruct (parseDiffPath path2) as [q| | |]; try discriminate.
  intros Hind Ha Hb. apply andb_true_iff in Hind as [Hdiv Hflag].
  apply Bool.eqb_prop in Hflag. rewrite <- Hflag in *.
  by apply (addDiff_swap_eq p q _ _ d).
Qed.

Lemma forallb_Permutation {A} (f : A → bool) (l l' : list A) :
  l ≡ₚ l' → forallb f l = forallb f l'.
Proof.
  induction 1 as [|x l l' _ IH|x y l|l l' l'' _ IH1 _ IH2]; cbn.
  - done.
  - by rewrite IH.
  - by destruct (f x), (f y).
  - by rewrite IH1.
Qed.

Lemma all_independent_Permutation (l l' : list (string * PropertyDiff)) :
  l ≡ₚ l' → all_independent l = all_independent l'.
Proof.
  induction 1 as [|x l l' Hp IH|x y l|l l' l'' _ IH1 _ IH2]; cbn.
  - done.
  - by rewrite IH, (forallb_Permutation _ _ _ Hp).
  - rewrite (independent_sym y x).
    destruct (independent x y), (forallb (independent x) l),
      (forallb (independent y) l); reflexivity.
  - by rewrite IH1.
Qed.

Lemma applyRecords_Permutation step (l l' : list (string * PropertyDiff)) :
  l ≡ₚ l' →
  ∀ d r, all_independent l = true →
         applyRecords step l d = Done r → applyRecords step l' d = Done r.
Proof.
  induction 1 as [|x l l' Hp IH|x y l|l l' l'' Hp1 IH1 Hp2 IH2]; intros d r Hind Hrun.
  - done.
  - cbn in *. apply andb_true_iff in Hind as [_ Hind].
    destruct (applyRecord step d x) as [d1|]; [|discriminate]. cbn in *. by apply IH.
  - cbn in *. apply andb_true_iff in Hind as [Hy Hind].
    apply andb_true_iff in Hy as [Hyx _].
    destruct (applyRecord step d y) as [b|] eqn:Hb; [|discriminate]. cbn in Hrun.
    destruct (applyRecord step b x) as [c|] eqn:Hc; [|discriminate]. cbn in Hrun.
    destruct (applyRecord_success_independent _ _ d _ _ Hc) as [a Ha].
    rewrite Ha. cbn.
    rewrite independent_sym in Hyx.
    rewrite (applyRecord_swap _ _ _ _ _ _ Hyx Ha Hb), Hc. exact Hrun.
  - apply IH2; [by rewrite <- (all_independent_Permutation _ _ Hp1) | by apply IH1].
Qed.

(** The loop reads the old and new properties of the step only. *)
Lemma applyRecords_step_ext step step' (l : list (string * PropertyDiff)) :
  OldOutputs step = OldOutputs step' → OldInputs step = OldInputs step' →
  NewInputs step = NewInputs step' →
  ∀ d, applyRecords step l d = applyRecords step' l d.
Proof.
  intros Ho Hi Hn. induction l as [|[path pdiff] l IH]; intros d; [done|].
  cbn [applyRecords]. unfold applyRecord. rewrite Ho, Hi, Hn.
  destruct (parseDiffPath path); try done.
  destruct (addDiff _ _ _ _ _); [apply IH | done].
Qed.

(** X16.  The order in which the records are visited does not change the
    result of a translation whose records are pairwise independent:
    their paths part ways and they read the old values from the same
    side. *)
Theorem translateDetailedDiff_order (l l' : list (string * PropertyDiff))
    (oldOutputs oldInputs newInputs : gmap string PropertyValue)
    (result : option (ObjectDiff.t ValueDiff)) :
  all_independent l = true → l ≡ₚ l' →
  translateDetailedDiff (mkStep (Some l) oldOutputs oldInputs newInputs) = Done result →
  translateDetailedDiff (mkStep (Some l') oldOutputs oldInputs newInputs) = Done result.
Proof.
  unfold translateDetailedDiff. cbn [DetailedDiff]. intros Hind Hperm Hrun.
  destruct (applyRecords _ l zeroValueDiff) as [d|] eqn:Hd; [|discriminate].
  cbn in Hrun. injection Hrun as <-.
  pose proof (applyRecords_Permutation
                (mkStep (Some l) oldOutputs oldInputs newInputs) l l' Hperm _ _ Hind Hd) as H.
  rewrite (applyRecords_step_ext _ (mkStep (Some l) oldOutputs oldInputs newInputs))
    by reflexivity.
  by rewrite H.
Qed.

Lemma applyEntry_populates x d e :
  x ≠ EOther → Array (applyEntry x d e) ≠ None ∨ Object (applyEntry x d e) ≠ None.
Proof. intros Hx. destruct x, e; try done; cbn; auto. Qed.

Lemma addDiff_populates path kind d oldParent newParent r :
  addDiff path kind d oldParent newParent = Done r →
  Array r ≠ None ∨ Object r ≠ None.
Proof.
  destruct path as [|x rest]; [discriminate|].
  destruct (decide (x = EOther)) as [->|Hx]; [by rewrite addDiff_other|].
  rewrite addDiff_head by done.
  destruct (headEntry _ _ _ _ _) as [e|]; [|discriminate].
  intros [= <-]. by apply applyEntry_populates.
Qed.

Lemma applyEntry_update_value x d ed e :
  (∀ ed', e ≠ EntryUpdate ed') →
  applyEntry x (applyEntry x d (EntryUpdate ed)) e =
  applyEntry x (applyEntry x d e) (EntryUpdate ed).
Proof.
  intros He. destruct e as [v|v|ed']; [| |by destruct (He ed')];
    diff_cases d; destruct x as [i|s|]; reflexivity.
Qed.

Lemma updatesAt_recordUpdate x d ed :
  x ≠ EOther → updatesAt (recordUpdate x d ed) x = Some ed.
Proof.
  intros Hkey. destruct (recordUpdate_inUpdates x ed d Hkey) as (_ & H & _). exact H.
Qed.

(** X13.  An update record for the one-element path of [x] and a record
    for a longer path that starts with [x], both looked up on the same
    values and both orders succeeding.  With the update record last, the
    entry of [x] in Updates is the bare pair of old and new value.  The
    two orders give different accumulators exactly when the two looked-up
    values of [x] are both null or both not null, which is when the longer
    record builds a nested diff in Updates that the update record then
    replaces; when only one of them is null the longer record writes to
    Adds or Deletes and the order makes no difference. *)
Theorem addDiff_prefix_order_matters (x : PathElement) (rest : list PathElement)
    (kind : DiffKind) (d : ValueDiff) (oldParent newParent : PropertyValue)
    (first second : ValueDiff) :
  rest ≠ [] →
  (do a <- addDiff [x] DiffUpdate d oldParent newParent;
   addDiff (x :: rest) kind a oldParent newParent) = Done first →
  (do b <- addDiff (x :: rest) kind d oldParent newParent;
   addDiff [x] DiffUpdate b oldParent newParent) = Done second →
  let old := getProperty x oldParent in
  let new := getProperty x newParent in
  updatesAt second x = Some (mkValueDiff old new None None) ∧
  (first ≠ second ↔ IsNull old = IsNull new).
Proof.
  intros Hrest H1 H2 old new. subst old new.
  destruct (decide (x = EOther)) as [->|Hx]; [by rewrite addDiff_other in H1|].
  destruct rest as [|next rest']; [done|].
  rewrite addDiff_head in H1 by done. cbn [headEntry exec_bind] in H1.
  rewrite addDiff_head in H1 by done. cbn [headEntry] in H1.
  rewrite addDiff_head in H2 by done. cbn [headEntry] in H2.
  rewrite nestedDiff_applyEntry_update in H1 by done.
  destruct (IsNull (getProperty x oldParent)) eqn:Hold,
           (IsNull (getProperty x newParent)) eqn:Hnew;
    cbn [andb negb] in H1, H2.
  2,3: cbn [exec_bind] in H1, H2;
       rewrite addDiff_head in H2 by done; cbn [headEntry exec_bind] in H2;
       injection H1 as <-; injection H2 as <-;
       (split; [by apply updatesAt_recordUpdate|]);
       (split; [|discriminate]); intros Hne; exfalso; apply Hne;
       first [ exact (applyEntry_update_value x d _ (EntryAdd _) ltac:(discriminate))
             | exact (applyEntry_update_value x d _ (EntryDelete _) ltac:(discriminate)) ].
  all: destruct (addDiff (next :: rest') kind
                   (mkValueDiff (getProperty x oldParent) (getProperty x newParent)
                      None None) _ _) as [ed|] eqn:Hed; [|discriminate];
       destruct (addDiff (next :: rest') kind (nestedDiff x d) _ _) as [ed'|];
         [|discriminate];
       cbn [exec_bind] in H1, H2;
       rewrite addDiff_head in H2 by done; cbn [headEntry exec_bind] in H2;
       injection H1 as <-; injection H2 as <-;
       (split; [by apply updatesAt_recordUpdate|]);
       (split; [reflexivity|]); intros _ Heq;
       apply (f_equal (λ r, updatesAt r x)) in Heq; cbv beta in Heq;
       rewrite !updatesAt_recordUpdate in Heq by done;
       injection Heq as ->;
       by destruct (addDiff_populates _ _ _ _ _ _ Hed).
Qed.

Lemma addDiff_succeeds (path : list PathElement) :
  ∀ kind d oldParent newParent,
    path ≠ [] → forallb isKey path = true → validKind kind = true →
    ∃ r, addDiff path kind d oldParent newParent = Done r.
Proof.
  induction path as [|x rest IH]; intros kind d oldParent newParent Hne Hkeys Hkind; [done|].
  cbn [forallb] in Hkeys. apply andb_true_iff in Hkeys as [Hx Hrest].
  rewrite addDiff_head by (by destruct x).
  destruct rest as [|next rest']; cbn [headEntry].
  { destruct kind; try done; cbn; eauto. }
  destruct (IsNull _ && negb _); [cbn; eauto|].
  destruct (negb _ && IsNull _); [cbn; eauto|].
  destruct (IH kind (nestedDiff x d) (getProperty x oldParent) (getProperty x newParent))
    as [ed ->]; [done..|]. cbn. eauto.
Qed.

Lemma representable_isKey elements :
  forallb representable elements = true → forallb isKey elements = true.
Proof.
  induction elements as [|x rest IH]; [done|]. cbn.
  intros H. apply andb_true_iff in H as [Hx Hrest]. rewrite (IH Hrest).
  by destruct x.
Qed.

(** The loop succeeds exactly when each record can be applied on its own. *)
Lemma applyRecords_succeeds_iff step (records : list (string * PropertyDiff)) :
  ∀ d, (∃ r, applyRecords step records d = Done r) ↔
       Forall (λ record, ∃ r, applyRecord step zeroValueDiff record = Done r) records.
Proof.
  induction records as [|record records IH]; intros d; cbn [applyRecords].
  - split; [constructor | eauto].
  - split.
    + intros [r Hrun].
      destruct (applyRecord step d record) as [d1|] eqn:H1; [|discriminate].
      constructor; [by eapply applyRecord_success_independent|].
      apply (IH d1). eauto.
    + intros H. inversion H as [|? ? [r1 H1] Hrest]; subst.
      destruct (applyRecord_success_independent _ _ d _ _ H1) as [d1 ->].
      cbn. by apply IH.
Qed.

Lemma applyRecord_succeeds_iff step d path pdiff :
  validKind (Kind pdiff) = true →
  (∃ r, applyRecord step d (path, pdiff) = Done r) ↔
  conforms path ∧ only_dots path = false.
Proof.
  intros Hkind. unfold applyRecord. split.
  - intros [r Hrun].
    destruct (parseDiffPath path) as [elements| | |] eqn:Hparse; try discriminate.
    split; [eapply parseLoop_conforms, Hparse|].
    destruct (only_dots path) eqn:Hdots; [|done].
    apply parseDiffPath_empty_iff_only_dots in Hparse.
    apply Hparse in Hdots as ->. discriminate.
  - intros [Hconf Hdots].
    destruct (conforms_parseLoop _ Hconf (String.length path) []) as [elements Hparse]; [lia|].
    change (parseLoop (String.length path) path []) with (parseDiffPath path) in Hparse.
    rewrite Hparse. cbn [app].
    apply addDiff_succeeds; [| |done].
    + intros ->. apply parseDiffPath_empty_iff_only_dots in Hparse.
      destruct Hparse as [Hp _]. rewrite Hp in Hdots; done.
    + apply representable_isKey. eapply parseLoop_representable; [exact Hparse | done].
Qed.

(** X15.  With kinds among the six, the translation returns a result
    exactly when the path of every record conforms to the grammar and has
    an element; otherwise it panics. *)
Theorem translateDetailedDiff_succeeds_iff (step : StepEventMetadata)
    (records : list (string * PropertyDiff)) :
  DetailedDiff step = Some records →
  forallb (λ record, validKind (Kind record.2)) records = true →
  (∃ result, translateDetailedDiff step = Done result) ↔
  Forall (λ record, conforms record.1 ∧ only_dots record.1 = false) records.
Proof.
  intros Hsome Hkinds. unfold translateDetailedDiff. rewrite Hsome.
  transitivity (∃ r, applyRecords step records zeroValueDiff = Done r).
  { split.
    - intros [result H]. destruct (applyRecords _ _ _) as [d|]; [eauto | discriminate].
    - intros [d ->]. cbn. eauto. }
  rewrite applyRecords_succeeds_iff.
  rewrite forallb_forall in Hkinds. rewrite !Forall_forall.
  split; intros H [path pdiff] Hin.
  - cbn [fst]. apply (applyRecord_succeeds_iff step zeroValueDiff path pdiff).
    + apply (Hkinds (path, pdiff)). by apply list_elem_of_In.
    + by apply H.
  - apply applyRecord_succeeds_iff.
    + apply (Hkinds (path, pdiff)). by apply list_elem_of_In.
    + by apply (H (path, pdiff)).
Qed.

Lemma applyEntry_Object x d e :
  x ≠ EOther →
  (is_Some (Object (applyEntry x d e)) ↔ is_Some (Object d) ∨ headIsKey [x] = true) ∧
  (is_Some (Array (applyEntry x d e)) ↔ is_Some (Array d) ∨ headIsKey [x] = false).
Proof.
  intros Hx. destruct x as [i|s|], e; try done; cbn; (split; split);
    try (intros _; by eauto); try (intros [H|H]; by eauto); eauto.
Qed.

Lemma addDiff_Object path kind d oldParent newParent r :
  addDiff path kind d oldParent newParent = Done r →
  (is_Some (Object r) ↔ is_Some (Object d) ∨ headIsKey path = true) ∧
  (is_Some (Array r) ↔ is_Some (Array d) ∨ headIsKey path = false).
Proof.
  destruct path as [|x rest]; [discriminate|].
  destruct (decide (x = EOther)) as [->|Hx]; [by rewrite addDiff_other|].
  rewrite addDiff_head by done.
  destruct (headEntry _ _ _ _ _) as [e|]; [|discriminate].
  intros [= <-]. destruct (applyEntry_Object x d e Hx) as [Ho Ha].
  split; [by destruct x | by destruct x].
Qed.

Lemma applyRecords_Object step (records : list (string * PropertyDiff)) :
  ∀ d r, applyRecords step records d = Done r →
    (is_Some (Object r) ↔
     is_Some (Object d) ∨
     ∃ record elements, record ∈ records ∧
       parseDiffPath record.1 = ParseOk elements ∧ headIsKey elements = true).
Proof.
  induction records as [|[path pdiff] records IH]; intros d r Hrun; cbn [applyRecords] in Hrun.
  - injection Hrun as <-. split; [by left|].
    intros [H|(record & ? & Hin & _)]; [done | by apply elem_of_nil in Hin].
  - destruct (applyRecord step d (path, pdiff)) as [d1|] eqn:H1; [|discriminate].
    cbn in Hrun. apply IH in Hrun. rewrite Hrun. clear Hrun.
    unfold applyRecord in H1.
    destruct (parseDiffPath path) as [elements| | |] eqn:Hparse; try discriminate.
    apply addDiff_Object in H1 as [H1 _]. rewrite H1. split.
    + intros [[H|H]|(record & els & Hin & Hp & Hk)].
      * by left.
      * right. exists (path, pdiff), elements. split; [by left | done].
      * right. exists record, els. split; [by right | done].
    + intros [H|(record & els & Hin & Hp & Hk)]; [by left; left|].
      apply elem_of_cons in Hin as [->|Hin].
      * cbn [fst] in Hp. assert (els = elements) as -> by congruence. by left; right.
      * right. by exists record, els.
Qed.

(** X17.  The result of a translation is a non-nil object diff exactly
    when the path of some record starts with a string key; what records
    whose paths start with an index put in the accumulator is not
    returned. *)
Theorem translateDetailedDiff_result_present (step : StepEventMetadata)
    (records : list (string * PropertyDiff)) (result : option (ObjectDiff.t ValueDiff)) :
  DetailedDiff step = Some records →
  translateDetailedDiff step = Done result →
  (is_Some result ↔
   ∃ record elements, record ∈ records ∧
     parseDiffPath record.1 = ParseOk elements ∧ headIsKey elements = true).
Proof.
  intros Hsome. unfold translateDetailedDiff. rewrite Hsome.
  destruct (applyRecords step records zeroValueDiff) as [d|] eqn:Hrun; [|discriminate].
  intros [= <-]. apply applyRecords_Object in Hrun. rewrite Hrun.
  split; [intros [H|H]; [by destruct H | done] | by right].
Qed.

Lemma sames_empty_leaf old new : sames_empty (mkValueDiff old new None None).
Proof. constructor; cbn; intros; discriminate. Qed.

Lemma sames_empty_inv d :
  sames_empty d →
  (∀ a, Array d = Some a → ArrayDiff.Sames a = ∅) ∧
  (∀ o, Object d = Some o → ObjectDiff.Sames o = ∅) ∧
  (∀ a i d', Array d = Some a → ArrayDiff.Updates a !! i = Some d' → sames_empty d') ∧
  (∀ o e d', Object d = Some o → ObjectDiff.Updates o !! e = Some d' → sames_empty d').
Proof. destruct 1; auto. Qed.

Lemma sames_empty_nestedDiff x d : sames_empty d → sames_empty (nestedDiff x d).
Proof.
  intros H. apply sames_empty_inv in H as (_ & _ & Ha & Ho).
  destruct x as [i|s|]; cbn; [| |apply sames_empty_leaf].
  - unfold arrayUpdate, ensureArray. destruct (Array d) as [a|] eqn:E; cbn.
    + destruct (ArrayDiff.Updates a !! i) eqn:E'; cbn; [eauto | apply sames_empty_leaf].
    + rewrite lookup_empty. apply sames_empty_leaf.
  - unfold objectUpdate, ensureObject. destruct (Object d) as [o|] eqn:E; cbn.
    + destruct (ObjectDiff.Updates o !! s) eqn:E'; cbn; [eauto | apply sames_empty_leaf].
    + rewrite lookup_empty. apply sames_empty_leaf.
Qed.

Lemma ensureArray_sames d :
  (∀ a, Array d = Some a → ArrayDiff.Sames a = ∅) →
  ArrayDiff.Sames (ensureArray d) = ∅.
Proof.
  intros H. unfold ensureArray. destruct (Array d) as [a|]; simpl; [by apply H | reflexivity].
Qed.

Lemma ensureObject_sames d :
  (∀ o, Object d = Some o → ObjectDiff.Sames o = ∅) →
  ObjectDiff.Sames (ensureObject d) = ∅.
Proof.
  intros H. unfold ensureObject. destruct (Object d) as [o|]; simpl; [by apply H | reflexivity].
Qed.

Lemma sames_empty_recordAdd x d v : sames_empty d → sames_empty (recordAdd x d v).
Proof.
  intros H. pose proof (sames_empty_inv _ H) as (Hsa & Hso & Ha & Ho).
  destruct x as [i|s|]; [| |exact H]; constructor; simpl.
  - intros a [= <-]. simpl. by apply ensureArray_sames.
  - exact Hso.
  - intros a j d' [= <-] Hj. simpl in Hj.
    apply ensureArray_updates in Hj as (a0 & E & Hj). exact (Ha _ _ _ E Hj).
  - exact Ho.
  - exact Hsa.
  - intros o [= <-]. simpl. by apply ensureObject_sames.
  - exact Ha.
  - intros o j d' [= <-] Hj. simpl in Hj.
    apply ensureObject_updates in Hj as (o0 & E & Hj). exact (Ho _ _ _ E Hj).
Qed.

Lemma sames_empty_recordDelete x d v : sames_empty d → sames_empty (recordDelete x d v).
Proof.
  intros H. pose proof (sames_empty_inv _ H) as (Hsa & Hso & Ha & Ho).
  destruct x as [i|s|]; [| |exact H]; constructor; simpl.
  - intros a [= <-]. simpl. by apply ensureArray_sames.
  - exact Hso.
  - intros a j d' [= <-] Hj. simpl in Hj.
    apply ensureArray_updates in Hj as (a0 & E & Hj). exact (Ha _ _ _ E Hj).
  - exact Ho.
  - exact Hsa.
  - intros o [= <-]. simpl. by apply ensureObject_sames.
  - exact Ha.
  - intros o j d' [= <-] Hj. simpl in Hj.
    apply ensureObject_updates in Hj as (o0 & E & Hj). exact (Ho _ _ _ E Hj).
Qed.

Lemma sames_empty_recordUpdate x d ed :
  sames_empty d → sames_empty ed → sames_empty (recordUpdate x d ed).
Proof.
  intros H Hed. pose proof (sames_empty_inv _ H) as (Hsa & Hso & Ha & Ho).
  destruct x as [i|s|]; [| |exact H]; constructor; simpl.
  - intros a [= <-]. simpl. by apply ensureArray_sames.
  - exact Hso.
  - intros a j d' [= <-] Hj. simpl in Hj.
    apply lookup_insert_Some in Hj as [[_ <-]|[_ Hj]]; [exact Hed|].
    apply ensureArray_updates in Hj as (a0 & E & Hj). exact (Ha _ _ _ E Hj).
  - exact Ho.
  - exact Hsa.
  - intros o [= <-]. simpl. by apply ensureObject_sames.
  - exact Ha.
  - intros o j d' [= <-] Hj. simpl in Hj.
    apply lookup_insert_Some in Hj as [[_ <-]|[_ Hj]]; [exact Hed|].
    apply ensureObject_updates in Hj as (o0 & E & Hj). exact (Ho _ _ _ E Hj).
Qed.

Lemma sames_empty_applyEntry x d e :
  sames_empty d →
  (∀ ed, e = EntryUpdate ed → sames_empty ed) →
  sames_empty (applyEntry x d e).
Proof.
  intros H He. destruct e as [v|v|ed]; cbn [applyEntry].
  - by apply sames_empty_recordAdd.
  - by apply sames_empty_recordDelete.
  - apply sames_empty_recordUpdate; [exact H | by apply He].
Qed.

Lemma addDiff_sames_empty (path : list PathElement) :
  ∀ kind d oldParent newParent r,
    sames_empty d → addDiff path kind d oldParent newParent = Done r → sames_empty r.
Proof.
  induction path as [|x rest IH]; intros kind d oldParent newParent r Hd Hrun; [discriminate|].
  destruct (decide (x = EOther)) as [->|Hx]; [by rewrite addDiff_other in Hrun|].
  rewrite addDiff_head in Hrun by done.
  destruct (headEntry _ _ _ _ _) as [e|] eqn:He; [|discriminate].
  injection Hrun as <-. apply sames_empty_applyEntry; [done|].
  intros ed ->. destruct rest as [|next rest']; cbn [headEntry] in He.
  - destruct kind; try discriminate; injection He as <-; apply sames_empty_leaf.
  - destruct (IsNull _ && negb _); [discriminate|].
    destruct (negb _ && IsNull _); [discriminate|].
    destruct (addDiff (next :: rest') kind _ _ _) as [ed'|] eqn:Hrec; [|discriminate].
    injection He as <-. eapply IH; [|exact Hrec]. by apply sames_empty_nestedDiff.
Qed.

(** X18.  The loop never writes to a Sames map: when no node of the
    accumulator has an entry in Sames before, none has one after. *)
Theorem applyRecords_sames_empty (step : StepEventMetadata)
    (records : list (string * PropertyDiff)) (d r : ValueDiff) :
  sames_empty d → applyRecords step records d = Done r → sames_empty r.
Proof.
  revert d. induction records as [|[path pdiff] records IH]; intros d Hd Hrun;
    cbn [applyRecords] in Hrun.
  - by injection Hrun as <-.
  - destruct (applyRecord step d (path, pdiff)) as [d1|] eqn:H1; [|discriminate].
    cbn in Hrun. eapply IH; [|exact Hrun].
    unfold applyRecord in H1. destruct (parseDiffPath path); try discriminate.
    by eapply addDiff_sames_empty.
Qed.

Lemma getProperty_scalar key v : isScalar v = true → getProperty key v = PVNull.
Proof. by destruct v. Qed.

(** X9.  Looking up a whole path below a computed, output or secret value
    gives that value back; looking up a path of one or more elements
    below null, a boolean, a number or a string gives null. *)
Theorem descend_absorbed (prefix : list PathElement) (v : PropertyValue) :
  (isOpaque v = true → descend prefix v = v) ∧
  (isScalar v = true → prefix ≠ [] → descend prefix v = PVNull).
Proof.
  split.
  - intros Hv. induction prefix as [|x prefix IH]; [done|].
    cbn [descend]. by rewrite getProperty_IsOpaque.
  - intros Hv Hne. destruct prefix as [|x prefix]; [done|].
    cbn [descend]. rewrite getProperty_scalar by done. clear.
    induction prefix as [|y prefix IH]; [done | exact IH].
Qed.

Lemma only_dots_conforms (s : string) : only_dots s = true → conforms s.
Proof.
  induction s as [|c s IH]; [intros _; apply conforms_end|].
  cbn. intros H. apply andb_true_iff in H as [Hc Hs].
  apply Ascii.eqb_eq in Hc as ->. by apply conforms_separator, IH.
Qed.

(** The panics of one call: an empty path, an element that is neither
    an integer nor a string, a kind that is none of the six. *)
Lemma addDiff_panic_cases (path : list PathElement) :
  ∀ kind d oldParent newParent p,
    addDiff path kind d oldParent newParent = Fault p →
    (p = RequireFailed ∧ path = []) ∨
    (p = UnexpectedElementType ∧ forallb isKey path = false) ∨
    (p = UnexpectedDiffKind ∧ validKind kind = false).
Proof.
  induction path as [|x rest IH]; intros kind d oldParent newParent p H.
  - injection H as <-. by left.
  - right. destruct (decide (x = EOther)) as [->|Hx].
    { rewrite addDiff_other in H. injection H as <-. by left. }
    rewrite addDiff_head in H by done.
    destruct rest as [|next rest']; cbn [headEntry] in H.
    { destruct kind; try discriminate. injection H as <-. by right. }
    destruct (IsNull _ && negb _); [discriminate|].
    destruct (negb _ && IsNull _); [discriminate|].
    destruct (addDiff (next :: rest') kind _ _ _) as [ed|p'] eqn:Hrec; [discriminate|].
    cbn in H. injection H as <-.
    apply IH in Hrec as [[_ ?]|[[-> Hk]|[-> Hk]]]; [done | left | by right].
    split; [done|]. cbn [forallb]. cbn [forallb] in Hk. rewrite Hk. apply andb_false_r.
Qed.

(** ** Further properties of the parser *)

(** X1.  Parsing composes: an accepted string followed by a tail that
    starts at an element boundary (the end of the input, a ['.'] or a
    ['[']) parses to the elements of the string followed by those of the
    tail, and fails or panics as the tail does. *)
Theorem parseDiffPath_app (s1 s2 : string) (e1 : list PathElement) :
  parseDiffPath s1 = ParseOk e1 → at_boundary s2 = true →
  parseDiffPath (s1 ++ s2) = prependElements e1 (parseDiffPath s2).
Proof. apply parseDiffPath_concat. Qed.

Lemma parseDiffPath_app_witness :
  parseDiffPath ("a" ++ "[0].b") = prependElements [EStr "a"] (parseDiffPath "[0].b").
Proof. apply (parseDiffPath_app "a" "[0].b" [EStr "a"]); reflexivity. Defined.

Lemma parseDiffPath_separator_ignored_witness :
  parseDiffPath ("a" ++ String dot "[0]") = parseDiffPath ("a" ++ "[0]").
Proof.
  apply (parseDiffPath_separator_ignored "a" "[0]" [EStr "a"]); reflexivity.
Defined.

(** X4.  The strings the parser accepts are exactly those of the grammar:
    separators, bracketed quoted keys with escaped quotes, bracketed
    integers that [ParseInt] reads, and bare names; on any other string it
    returns an error or panics, never a path. *)
Theorem parseDiffPath_language (path : string) :
  ((∃ elements, parseDiffPath path = ParseOk elements) ↔ conforms path) ∧
  (¬ conforms path →
   (∃ err, parseDiffPath path = ParseErr err) ∨ parseDiffPath path = ParsePanic).
Proof.
  split; [apply parseDiffPath_accepts_iff_conforms|].
  intros Hmal. destruct (parseDiffPath_outcomes path) as [Hok|[H|[H _]]]; [|by left|by right].
  by apply parseDiffPath_accepts_iff_conforms in Hok.
Qed.

Lemma parseDiffPath_nil_iff (path : string) :
  parseDiffPath path = ParseOk [] ↔ only_dots path = true.
Proof.
  split.
  - intros H. by apply (parseDiffPath_empty_iff_only_dots path []).
  - intros Hdots.
    destruct (conforms_parseLoop _ (only_dots_conforms _ Hdots) (String.length path) [])
      as [elements Hparse]; [lia|].
    change (parseLoop (String.length path) path []) with (parseDiffPath path) in Hparse.
    rewrite Hparse. f_equal. cbn [app].
    by apply (parseDiffPath_empty_iff_only_dots path elements).
Qed.

(** X5.  The parser returns the empty path exactly on the strings made of
    ['.'] separators only, the empty string among them. *)
Theorem parseDiffPath_empty_path_iff (path : string) :
  parseDiffPath path = ParseOk [] ↔ only_dots path = true.
Proof. apply parseDiffPath_nil_iff. Qed.

Lemma parseDiffPath_elements_representable_witness :
  forallb representable [EStr "a"; EInt 0; EStr "b.c"] = true.
Proof.
  apply (parseDiffPath_elements_representable
           ("a[0]" ++ quotedAccessor "b.c")).
  reflexivity.
Defined.

(** X7.  For every integer, its decimal spelling between brackets parses
    to that integer when it fits Go's [int] and is rejected as an invalid
    array index when it does not. *)
Theorem parseDiffPath_decimal_index (n : Z) :
  parseDiffPath (String lbracket (decimal n ++ String rbracket_char EmptyString)) =
    if inIntRange n then ParseOk [EInt n] else ParseErr InvalidArrayIndex.
Proof. apply parseDiffPath_decimal. Qed.

Lemma parseDiffPath_renderPath_witness :
  parseDiffPath (renderPath [EStr "a"; EInt (-3); EStr "x.y"; EStr "b"]) =
    ParseOk [EStr "a"; EInt (-3); EStr "x.y"; EStr "b"].
Proof.
  apply (parseDiffPath_renderPath [EStr "a"; EInt (-3); EStr "x.y"; EStr "b"]).
  reflexivity.
Defined.

(** ** Further properties of the lookup *)

Lemma descend_absorbed_witness :
  descend [EStr "a"; EInt 2] (PVSecret (PVString "s")) = PVSecret (PVString "s") ∧
  descend [EStr "a"; EInt 2] (PVNumber 5) = PVNull.
Proof.
  split.
  - apply (proj1 (descend_absorbed [EStr "a"; EInt 2] (PVSecret (PVString "s")))).
    reflexivity.
  - apply (proj2 (descend_absorbed [EStr "a"; EInt 2] (PVNumber 5)));
      [reflexivity | discriminate].
Defined.

(** ** Further properties of addDiff *)

(** X10.  Whether a call panics, and with which panic, is decided by the
    path, the kind and the two values alone: a call that panics on one
    accumulator panics in the same way on every other. *)
Theorem addDiff_panic_ignores_accumulator (path : list PathElement) (kind : DiffKind)
    (d d' : ValueDiff) (oldParent newParent : PropertyValue) (p : Panic) :
  addDiff path kind d oldParent newParent = Fault p →
  addDiff path kind d' oldParent newParent = Fault p.
Proof. apply addDiff_fault_independent. Qed.

Lemma addDiff_panic_ignores_accumulator_witness :
  addDiff [EStr "a"; EStr "b"] (DiffKindOther 7)
      (recordAdd (EStr "x") zeroValueDiff PVNull)
      (PVObject {["a" := PVObject ∅]}) (PVObject {["a" := PVObject ∅]}) =
    Fault UnexpectedDiffKind.
Proof.
  apply (addDiff_panic_ignores_accumulator [EStr "a"; EStr "b"] (DiffKindOther 7)
           zeroValueDiff).
  reflexivity.
Defined.

Lemma addDiff_idempotent_witness :
  addDiff [EStr "a"; EStr "b"] DiffUpdate
      (recordUpdate (EStr "a") zeroValueDiff
         (recordUpdate (EStr "b") zeroValueDiff
            (mkValueDiff (PVNumber 1) (PVNumber 2) None None)))
      (PVObject {["a" := PVObject {["b" := PVNumber 1]}]})
      (PVObject {["a" := PVObject {["b" := PVNumber 2]}]}) =
    Done (recordUpdate (EStr "a") zeroValueDiff
            (recordUpdate (EStr "b") zeroValueDiff
               (mkValueDiff (PVNumber 1) (PVNumber 2) None None))).
Proof.
  apply (addDiff_idempotent [EStr "a"; EStr "b"] DiffUpdate zeroValueDiff).
  reflexivity.
Defined.

(** X12.  Two records whose paths part ways, looked up on the same values,
    can be applied in either order: when each can be applied to an
    accumulator, applying both gives the same accumulator in both orders. *)
Theorem addDiff_diverging_commute (p q : list PathElement) (k1 k2 : DiffKind)
    (d a b : ValueDiff) (oldParent newParent : PropertyValue) :
  diverge p q = true →
  addDiff p k1 d oldParent newParent = Done a →
  addDiff q k2 d oldParent newParent = Done b →
  ∃ r, addDiff q k2 a oldParent newParent = Done r ∧
       addDiff p k1 b oldParent newParent = Done r.
Proof.
  intros Hdiv Ha Hb.
  destruct (addDiff_success_independent _ _ _ a _ _ _ Hb) as [r Hr].
  exists r. split; [exact Hr|].
  by rewrite <- (addDiff_swap_eq p q k1 k2 d oldParent newParent a b).
Qed.

Lemma addDiff_diverging_commute_witness :
  ∃ r,
    addDiff [EStr "a"; EStr "c"] DiffAdd
        (recordUpdate (EStr "a") zeroValueDiff
           (recordUpdate (EStr "b") zeroValueDiff
              (mkValueDiff (PVNumber 1) (PVNumber 2) None None)))
        (PVObject {["a" := PVObject {["b" := PVNumber 1]}]})
        (PVObject {["a" := PVObject {["b" := PVNumber 2; "c" := PVBool true]}]}) = Done r ∧
    addDiff [EStr "a"; EStr "b"] DiffUpdate
        (recordUpdate (EStr "a") zeroValueDiff
           (recordAdd (EStr "c") zeroValueDiff (PVBool true)))
        (PVObject {["a" := PVObject {["b" := PVNumber 1]}]})
        (PVObject {["a" := PVObject {["b" := PVNumber 2; "c" := PVBool true]}]}) = Done r.
Proof.
  apply (addDiff_diverging_commute [EStr "a"; EStr "b"] [EStr "a"; EStr "c"]
           DiffUpdate DiffAdd zeroValueDiff); reflexivity.
Defined.

Lemma addDiff_prefix_order_matters_witness :
  ∃ first second,
    (do a <- addDiff [EStr "a"] DiffUpdate zeroValueDiff
               (PVObject (OldOutputs nestedStep)) (PVObject (NewInputs nestedStep));
     addDiff [EStr "a"; EStr "b"] DiffUpdate a
       (PVObject (OldOutputs nestedStep)) (PVObject (NewInputs nestedStep))) = Done first ∧
    (do b <- addDiff [EStr "a"; EStr "b"] DiffUpdate zeroValueDiff
               (PVObject (OldOutputs nestedStep)) (PVObject (NewInputs nestedStep));
     addDiff [EStr "a"] DiffUpdate b
       (PVObject (OldOutputs nestedStep)) (PVObject (NewInputs nestedStep))) = Done second ∧
    first ≠ second.
Proof.
  do 2 eexists. split; [vm_compute; reflexivity|]. split; [vm_compute; reflexivity|].
  refine (proj2 (proj2 (addDiff_prefix_order_matters (EStr "a") [EStr "b"] DiffUpdate
            zeroValueDiff
            (PVObject (OldOutputs nestedStep)) (PVObject (NewInputs nestedStep))
            _ _ _ _ _)) _); [discriminate | vm_compute; reflexivity
                            | vm_compute; reflexivity | reflexivity].
Defined.

(** ** Further properties of the translation *)

(** X14.  What makes the translation panic on a record: the requirement
    of a non-empty path fails exactly when the path string is made of
    separators only; the assertion on the parse error fails exactly when
    the parser returns an error; the index panic of the parser is passed
    on; and a parsed path never holds an element of an unexpected type. *)
Theorem applyRecord_panics (step : StepEventMetadata) (d : ValueDiff)
    (path : string) (pdiff : PropertyDiff) :
  (applyRecord step d (path, pdiff) = Fault RequireFailed ↔ only_dots path = true) ∧
  (applyRecord step d (path, pdiff) = Fault AssertFailed ↔
   ∃ err, parseDiffPath path = ParseErr err) ∧
  (applyRecord step d (path, pdiff) = Fault IndexOutOfRange ↔
   parseDiffPath path = ParsePanic) ∧
  applyRecord step d (path, pdiff) ≠ Fault UnexpectedElementType ∧
  applyRecord step d (path, pdiff) ≠ Fault LoopBound.
Proof.
  pose proof (parseDiffPath_nil_iff path) as Hempty.
  pose proof (parseDiffPath_terminates path) as Hterm.
  unfold applyRecord.
  destruct (parseDiffPath path) as [elements|err| |] eqn:Hparse; [| | |done].
  - assert (Hkeys : forallb isKey elements = true).
    { apply representable_isKey. eapply parseLoop_representable; [exact Hparse | done]. }
    repeat split.
    + intros H. apply addDiff_panic_cases in H as [[_ ->]|[[? _]|[? _]]]; try done.
      by apply Hempty.
    + intros Hdots. apply Hempty in Hdots. by injection Hdots as ->.
    + intros H. by apply addDiff_panic_cases in H as [[? _]|[[? _]|[? _]]].
    + by intros [err ?].
    + intros H. by apply addDiff_panic_cases in H as [[? _]|[[? _]|[? _]]].
    + done.
    + intros H. apply addDiff_panic_cases in H as [[? _]|[[_ Hk]|[? _]]]; try done.
      by rewrite Hkeys in Hk.
    + intros H. by apply addDiff_panic_cases in H as [[? _]|[[? _]|[? _]]].
  - repeat split; try done.
    + intros Hdots. apply Hempty in Hdots. discriminate.
    + intros _. eauto.
  - repeat split; try done.
    + intros Hdots. apply Hempty in Hdots. discriminate.
    + by intros [err ?].
Qed.

Lemma translateDetailedDiff_succeeds_iff_witness :
  (∃ result, translateDetailedDiff plainStep = Done result) ↔
  Forall (λ record, conforms record.1 ∧ only_dots record.1 = false) plainRecords.
Proof.
  apply (translateDetailedDiff_succeeds_iff plainStep plainRecords); reflexivity.
Defined.

Lemma translateDetailedDiff_order_witness :
  ∃ result,
    translateDetailedDiff
      (mkStep (Some [("a.c", mkPropertyDiff DiffAdd false);
                     ("a.b", mkPropertyDiff DiffUpdate false);
                     ("d[0]", mkPropertyDiff DiffDelete false)])
              (OldOutputs plainStep) (OldInputs plainStep) (NewInputs plainStep)) =
    Done result.
Proof.
  eexists.
  eapply (translateDetailedDiff_order plainRecords
            [("a.c", mkPropertyDiff DiffAdd false);
             ("a.b", mkPropertyDiff DiffUpdate false);
             ("d[0]", mkPropertyDiff DiffDelete false)]
            (OldOutputs plainStep) (OldInputs plainStep) (NewInputs plainStep));
    [reflexivity | apply perm_swap | vm_compute; reflexivity].
Defined.

Lemma translateDetailedDiff_result_present_witness :
  ∃ result,
    translateDetailedDiff plainStep = Done result ∧
    (is_Some result ↔
     ∃ record elements, record ∈ plainRecords ∧
       parseDiffPath record.1 = ParseOk elements ∧ headIsKey elements = true).
Proof.
  eexists. split; [vm_compute; reflexivity|].
  apply (translateDetailedDiff_result_present plainStep plainRecords);
    [reflexivity | vm_compute; reflexivity].
Defined.

Lemma applyRecords_sames_empty_witness :
  ∃ r, applyRecords plainStep plainRecords zeroValueDiff = Done r ∧ sames_empty r.
Proof.
  eexists. split; [vm_compute; reflexivity|].
  eapply (applyRecords_sames_empty plainStep plainRecords zeroValueDiff);
    [apply sames_empty_leaf | vm_compute; reflexivity].
Defined.

Lemma resealDiff_Object f d : Object (resealDiff f d) = resealObject f <$> Object d.
Proof. by destruct d as [? ? ? [o|]]. Qed.

Lemma applyRecord_reseal f step d (record : string * PropertyDiff) :
  applyRecord (resealStep f step) (resealDiff f d) record =
  resealExec f (applyRecord step d record).
Proof.
  destruct record as [path pdiff]. unfold applyRecord.
  destruct (parseDiffPath path) as [elements| | |]; try done.
  rewrite <- addDiff_reseal. by destruct (InputDiff pdiff).
Qed.

Lemma applyRecords_reseal f step (records : list (string * PropertyDiff)) :
  ∀ d, applyRecords (resealStep f step) records (resealDiff f d) =
       resealExec f (applyRecords step records d).
Proof.
  induction records as [|record records IH]; intros d; [done|].
  cbn [applyRecords]. rewrite applyRecord_reseal.
  destruct (applyRecord step d record) as [d1|]; [apply IH | done].
Qed.

(** X19.  The translation never looks inside a computed, output or secret
    value: replacing the contents of the opaque values of the old and new
    properties replaces them in the same way in the result and changes
    nothing else, panics included. *)
Theorem translateDetailedDiff_reseal (f : PropertyValue → PropertyValue)
    (step : StepEventMetadata) :
  translateDetailedDiff (resealStep f step) = resealResult f (translateDetailedDiff step).
Proof.
  unfold translateDetailedDiff.
  change (DetailedDiff (resealStep f step)) with (DetailedDiff step).
  destruct (DetailedDiff step) as [records|]; [|done].
  pose proof (applyRecords_reseal f step records zeroValueDiff) as H.
  change (resealDiff f zeroValueDiff) with zeroValueDiff in H. rewrite H.
  destruct (applyRecords step records zeroValueDiff) as [d|]; [|done].
  cbn. by rewrite resealDiff_Object.
Qed.
